(** * grim-reaper: node selection, harvest and pod eviction

    A shallow embedding of the selection-and-harvest engine of grim-reaper
    (packages [config], [reaper], [kubernetes] and [main]) together with the
    properties of its specification.

    Conventions of the embedding.
    - Go's [int] is a [Z] reduced to 64-bit two's complement by [int64] at
      every subtraction the source performs.
    - A Go [error] value is an [option error]; [None] is [nil].
    - Every call that leaves the process (a method of the [NodeInterface], a
      request of the cluster client, [time.Now], [time.Sleep]) is recorded in
      a history.  The collaborator's answer to a call is a function of the
      history so far and of the arguments, so that the same question may be
      answered differently at different moments of one run.
    - A slice index out of range makes the run end in [Panicked].
    - A loop without a bound runs on fuel; a run that needs more ends in
      [OutOfFuel].
    - Log output is not modelled. *)

From Stdlib Require Import ZArith List String Bool Lia QArith.
Import ListNotations.

Local Open Scope string_scope.
Local Open Scope list_scope.
Local Open Scope Z_scope.

(** ** Go values shared by all packages *)

(** Go [int] on the supported 64-bit platforms. *)
Definition IntRange (z : Z) : Prop := - 2 ^ 63 <= z < 2 ^ 63.

Definition int64 (z : Z) : Z := (z + 2 ^ 63) mod 2 ^ 64 - 2 ^ 63.

(** [time.Time] instants and [time.Duration], both counted in nanoseconds. *)
Definition Time := Z.
Definition Duration := Z.
Definition Second : Duration := 1000000000.

(** [t.Before(u)] *)
Definition Before (t u : Time) : bool := t <? u.

(** [d.Seconds()] followed by the conversion [int64(...)]: the whole number
    of seconds, truncated toward zero. *)
Definition SecondsInt64 (d : Duration) : Z := Z.quot d Second.

(** The reason carried by an API status error (k8s.io/apimachinery). *)
Inductive StatusReason :=
| StatusReasonNotFound
| StatusReasonTooManyRequests
| StatusReasonOther (code : Z).

(** Error values: API status errors, [errors.New]/[errors.Errorf] and
    [errors.Wrap]/[errors.Wrapf] of github.com/pkg/errors. *)
Inductive error :=
| StatusError (reason : StatusReason) (message : string)
| errorsNew (message : string)
| errorsWrap (cause : error) (message : string).

(** [apiErrors.IsNotFound] and [apiErrors.IsTooManyRequests] *)
Definition IsNotFound (err : error) : bool :=
  match err with
  | StatusError StatusReasonNotFound _ => true
  | _ => false
  end.

Definition IsTooManyRequests (err : error) : bool :=
  match err with
  | StatusError StatusReasonTooManyRequests _ => true
  | _ => false
  end.

(** The variadic builtin [append(s, xs...)]. *)
Definition append {A : Type} (s xs : list A) : list A := s ++ xs.

(** [len(s)] *)
Definition len {A : Type} (s : list A) : Z := Z.of_nat (List.length s).

(** ** Runs with a history *)

Inductive Res (A : Type) :=
| Ok (a : A)
| Panicked
| OutOfFuel.
Arguments Ok {A} a.
Arguments Panicked {A}.
Arguments OutOfFuel {A}.

Section Effects.
Context {E : Type}.

Definition M (A : Type) : Type := list E -> Res A * list E.

Definition ret {A} (a : A) : M A := fun h => (Ok a, h).

Definition bind {A B} (c : M A) (k : A -> M B) : M B :=
  fun h =>
    match c h with
    | (Ok a, h') => k a h'
    | (Panicked, h') => (Panicked, h')
    | (OutOfFuel, h') => (OutOfFuel, h')
    end.

(** A call [e] to the outside whose answer is [answer] of the history
    before the call. *)
Definition invoke {A} (e : E) (answer : list E -> A) : M A :=
  fun h => (Ok (answer h), h ++ [e]).

Definition panic {A} : M A := fun h => (Panicked, h).

(** [s[i]] *)
Definition index {A} (s : list A) (i : Z) : M A :=
  if (0 <=? i) && (i <? len s)
  then match nth_error s (Z.to_nat i) with
       | Some a => ret a
       | None => panic
       end
  else panic.
End Effects.

Notation "x <- c ;; k" := (bind c (fun x => k))
  (at level 61, c at next level, right associativity).
Notation "c ;;; k" := (bind c (fun _ => k))
  (at level 61, right associativity).

(** ** package config *)
Module config.

Record Settings := {
  MinNodes : Z;
  MaxNodesDelete : Z;
  (* a float64 in the source; here the rational it denotes *)
  FractionNodesToDelete : Q;
  NodeLabelSelector : string;
  DealBreakerPodLabels : string;
  EvictionTimeout : Duration;
  GracefulTermination : Duration;
  EvictDeletionTimeout : Duration;
  DelayAfterCordon : Duration
}.

(** Both [int] fields hold 64-bit values. *)
Definition WellTyped (c : Settings) : Prop :=
  IntRange (MinNodes c) /\ IntRange (MaxNodesDelete c).

End config.

(** ** package reaper *)
Module reaper.
Import config.

(** [v1.Node], with the two fields the reaper reads. *)
Record Node := {
  Name : string;
  CreationTimestamp : Time
}.

(** Calls the reaper makes: the five methods of [NodeInterface] and the
    two functions of package [time]. *)
Inductive Call :=
| CallListNodes (labelSelector : string)
| CallHasDealBreakerPods (nodeName : string)
| CallCordonNode (name : string)
| CallMarkNodeToDrain (name : string)
| CallDrainNode (name : string)
| CallTimeNow
| CallTimeSleep (d : Duration).

Definition History := list Call.

(** [kubernetes.NodeInterface]: what each method answers after a given
    history. *)
Record NodeInterface := {
  ListNodes : History -> string -> list Node * option error;
  HasDealBreakerPods : History -> string -> bool * option error;
  CordonNode : History -> string -> option error;
  MarkNodeToDrain : History -> string -> option error;
  DrainNode : History -> string -> option error
}.

(** The wall clock read by [time.Now()]. *)
Definition Clock := History -> Time.

Record theGrimReaper := {
  config : Settings;
  nodeClient : NodeInterface
}.

Definition NewGrimReaper (config : Settings) (nodeClient : NodeInterface)
  : theGrimReaper :=
  {| config := config; nodeClient := nodeClient |}.

(** Line 45, [int(m.config.FractionNodesToDelete * float64(numNodes))]: the
    product truncated toward zero.  The product is taken exactly, where the
    source rounds it to the nearest float64; what is proved below about
    the number of nodes to reap is proved of the clamps, for every value of
    this product. *)
Definition truncatedProduct (fraction : Q) (numNodes : Z) : Z :=
  Z.quot (Qnum fraction * numNodes) (Zpos (Qden fraction)).

(** Lines 46-51: the two clamps of [nodesToReap]. *)
Definition clampNodesToReap (config : Settings) (numNodes nodesToReap : Z) : Z :=
  let nodesToReap :=
    if int64 (numNodes - nodesToReap) <? MinNodes config
    then int64 (numNodes - MinNodes config)
    else nodesToReap in
  let nodesToReap :=
    if nodesToReap >? MaxNodesDelete config
    then MaxNodesDelete config
    else nodesToReap in
  nodesToReap.

(** Lines 44-51: the number of nodes to try to reap. *)
Definition nodesToReapOf (config : Settings) (numNodes : Z) : Z :=
  let nodesToReap := truncatedProduct (FractionNodesToDelete config) numNodes in
  clampNodesToReap config numNodes nodesToReap.

(** Lines 62-67: has [name] been considered already? *)
Definition isConsidered (name : string) (consideredNodes : list string) : bool :=
  fold_left
    (fun considered c => if String.eqb name c then true else considered)
    consideredNodes false.

(** Lines 57-73: the scan for the oldest next node.  [i] is the index of
    the head of [items] in the full list; the result is the final
    [(lowestIndex, oldestCreateDate)]. *)
Fixpoint scanOldest (items : list Node) (i : Z) (consideredNodes : list string)
    (oldestCreateDate : Time) (lowestIndex : Z) : Z * Time :=
  match items with
  | [] => (lowestIndex, oldestCreateDate)
  | n :: rest =>
      if Before (CreationTimestamp n) oldestCreateDate then
        if negb (isConsidered (Name n) consideredNodes)
        then scanOldest rest (i + 1) consideredNodes (CreationTimestamp n) i
        else scanOldest rest (i + 1) consideredNodes oldestCreateDate lowestIndex
      else scanOldest rest (i + 1) consideredNodes oldestCreateDate lowestIndex
  end.

Definition Selection : Type := list string * list string * option error.

Section Selection.
Variable m : theGrimReaper.
Variable clock : Clock.

Definition timeNow : M Time := invoke CallTimeNow clock.

Definition timeSleep (d : Duration) : M unit :=
  invoke (CallTimeSleep d) (fun _ => tt).

(** Lines 55-93: the loop [for range allNodes.Items]; [iterations] holds
    one element per iteration still to run. *)
Fixpoint reapLoop (iterations allNodes : list Node) (nodesToReap : Z)
    (consideredNodes reap passover : list string) : M Selection :=
  match iterations with
  | [] => ret (reap, passover, None)
  | _ :: iterations' =>
      now <- timeNow ;;
      let lowestIndex := fst (scanOldest allNodes 0 consideredNodes now (-1)) in
      node <- index allNodes lowestIndex ;;
      let consideredNodes := append consideredNodes [] in
      r <- invoke (CallHasDealBreakerPods (Name node))
             (fun h => HasDealBreakerPods (nodeClient m) h (Name node)) ;;
      match r with
      | (_, Some err) => ret ([], [], Some err)
      | (dealBreak, None) =>
          let passover :=
            if dealBreak then append passover [Name node] else passover in
          let reap :=
            if dealBreak then reap else append reap [Name node] in
          if len reap =? nodesToReap
          then ret (reap, passover, None)
          else reapLoop iterations' allNodes nodesToReap
                 consideredNodes reap passover
      end
  end.

(** [GetNodesToReap] *)
Definition GetNodesToReap : M Selection :=
  r <- invoke (CallListNodes (NodeLabelSelector (config m)))
         (fun h => ListNodes (nodeClient m) h (NodeLabelSelector (config m))) ;;
  match r with
  | (_, Some err) => ret ([], [], Some err)
  | (allNodes, None) =>
      let numNodes := len allNodes in
      let nodesToReap := nodesToReapOf (config m) numNodes in
      reapLoop allNodes allNodes nodesToReap [] [] []
  end.

(** [MarkNodesForDestruction] *)
Fixpoint MarkNodesForDestruction (nodes : list string) : M (option error) :=
  match nodes with
  | [] => ret None
  | n :: nodes' =>
      err <- invoke (CallMarkNodeToDrain n)
               (fun h => MarkNodeToDrain (nodeClient m) h n) ;;
      match err with
      | Some e => ret (Some e)
      | None => MarkNodesForDestruction nodes'
      end
  end.

(** [Harvest] *)
Definition Harvest (node : string) : M (option error) :=
  err <- invoke (CallCordonNode node)
           (fun h => CordonNode (nodeClient m) h node) ;;
  match err with
  | Some e => ret (Some e)
  | None =>
      timeSleep (DelayAfterCordon (config m)) ;;;
      err <- invoke (CallDrainNode node)
               (fun h => DrainNode (nodeClient m) h node) ;;
      match err with
      | Some e => ret (Some e)
      | None => ret None
      end
  end.

End Selection.

End reaper.

(** ** package kubernetes *)
Module kubernetes.
Import config.

(** [metav1.OwnerReference], [v1.Pod] *)
Record OwnerReference := {
  Kind : string;
  OwnerName : string;
  Controller : option bool
}.

Record Pod := {
  Namespace : string;
  Name : string;
  OwnerReferences : list OwnerReference;
  TerminationGracePeriodSeconds : option Z
}.

(** [metav1.GetControllerOf]: the first owner reference whose [Controller]
    flag is set and true. *)
Definition GetControllerOf (pod : Pod) : option OwnerReference :=
  find (fun ref => match Controller ref with Some b => b | None => false end)
       (OwnerReferences pod).

(** Requests sent through the cluster client, and [time.Sleep]. *)
Inductive Call :=
| CallDaemonSetsGet (namespace name : string)
| CallPodsEvict (namespace name : string) (gracePeriodSeconds : Z)
| CallTimeSleep (d : Duration).

Definition History := list Call.

(** [kubernetes.Interface], restricted to the requests of the evictor. *)
Record Interface := {
  DaemonSetsGet : History -> string -> string -> option error;
  PodsEvict : History -> string -> string -> Z -> option error
}.

Record kubernetesPodEvictor := {
  dryRun : bool;
  client : Interface;
  settings : Settings
}.

(** What a call of a Go function hands back: the value of a [return]
    statement, or nothing when control reaches the closing brace of the body
    without one. *)
Inductive Returned (A : Type) :=
| Return (a : A)
| NoReturn.
Arguments Return {A} a.
Arguments NoReturn {A}.

(** [getPodDaemonSet] *)
Definition getPodDaemonSet (pod : Pod) : bool * string :=
  match GetControllerOf pod with
  | Some c => if String.eqb (Kind c) "DaemonSet" then (true, OwnerName c) else (false, "")
  | None => (false, "")
  end.

Definition isNil (err : option error) : bool :=
  match err with None => true | Some _ => false end.

Section Evictor.
Variable m : kubernetesPodEvictor.

(** [daemonsetExists] *)
Definition daemonsetExists (namespace name : string) : M (bool * option error) :=
  err <- invoke (CallDaemonSetsGet namespace name)
           (fun h => DaemonSetsGet (client m) h namespace name) ;;
  match err with
  | Some e => if IsNotFound e then ret (false, None) else ret (true, Some e)
  | None => ret (true, None)
  end.

(** [shouldEvict].  The body of the source ends after the DaemonSet check,
    with the comment [don't evict if statefulset] and no further statement. *)
Definition shouldEvict (pod : Pod) : M (Returned bool) :=
  let '(isDS, daemonSetName) := getPodDaemonSet pod in
  if isDS then
    r <- daemonsetExists (Namespace pod) daemonSetName ;;
    let '(exists_, err) := r in
    if exists_ || negb (isNil err) then ret (Return false) else ret NoReturn
  else ret NoReturn.

(** The state of the channel [abort] as [select] finds it. *)
Variable abort : History -> bool.

Definition selectAbort : M bool := fun h => (Ok (abort h), h).

Definition timeSleep (d : Duration) : M unit :=
  invoke (CallTimeSleep d) (fun _ => tt).

(** Lines 187-190 of [evict]. *)
Definition terminationGracePeriodOf (pod : Pod) : Z :=
  let terminationGracePeriod := SecondsInt64 (GracefulTermination (settings m)) in
  match TerminationGracePeriodSeconds pod with
  | Some p => if p <? terminationGracePeriod then p else terminationGracePeriod
  | None => terminationGracePeriod
  end.

Definition abortedError : error := errorsNew "pod eviction aborted".

(** [errors.Errorf("unable to tell if pod %v in namespace %v was evicted", ...)] *)
Definition unableToTellError (pod : Pod) : error :=
  errorsNew (String.append "unable to tell if pod "
            (String.append (Name pod)
            (String.append " in namespace "
            (String.append (Namespace pod) " was evicted")))).

(** [errors.Wrapf(err, "error evicting pod %v from namespace %v", ...)] *)
Definition evictingError (err : error) (pod : Pod) : error :=
  errorsWrap err (String.append "error evicting pod "
                 (String.append (Name pod)
                 (String.append " from namespace " (Namespace pod)))).

(** The loop [for { select { ... } }] of [evict]; [fuel] bounds the number of
    iterations, and a run that needs more ends in [OutOfFuel]. *)
Fixpoint evictLoop (fuel : nat) (pod : Pod) (terminationGracePeriod : Z)
    : M (option error) :=
  match fuel with
  | O => fun h => (OutOfFuel, h)
  | S fuel' =>
      aborted <- selectAbort ;;
      if aborted then ret (Some abortedError)
      else
        err <- invoke (CallPodsEvict (Namespace pod) (Name pod) terminationGracePeriod)
                 (fun h => PodsEvict (client m) h (Namespace pod) (Name pod)
                             terminationGracePeriod) ;;
        match err with
        | None => ret (Some (unableToTellError pod))
        | Some e =>
            if IsNotFound e then ret None
            else if negb (IsTooManyRequests e) then ret (Some (evictingError e pod))
            else timeSleep (5 * Second) ;;; evictLoop fuel' pod terminationGracePeriod
        end
  end.

(** [evict] *)
Definition evict (fuel : nat) (pod : Pod) : M (option error) :=
  evictLoop fuel pod (terminationGracePeriodOf pod).

End Evictor.

(** *** [evictPods]: the coordinator and its goroutines

    [evictPods] starts one goroutine per pod,
    [go func() { results <- m.evictor.evict(p, abort) }()], and then collects
    results.  The interleavings are given by a labelled step function: a label
    names the goroutine that moves. *)

(** One goroutine: inside [evict], blocked or about to send its result on
    [results], or finished. *)
Inductive Task :=
| Evicting (pod : Pod)
| Sending (result : option error)
| Exited.

(** [evictPods] itself: in the loop [for range pods] with so many iterations
    left, or returned. *)
Inductive Coordinator :=
| Collecting (remaining : nat)
| ReturnedWith (err : option error).

Record State := {
  coordinator : Coordinator;
  tasks : list Task;
  (* the buffer of [results := make(chan error, 1)] *)
  results : list (option error);
  (* [abort] has been closed *)
  abortClosed : bool
}.

Definition resultsCapacity : nat := 1.

Inductive Label :=
| EvictReturns (i : nat) (result : option error)
| TaskSends (i : nat)
| CoordinatorReceives
| CoordinatorTimesOut
| CoordinatorFinishes.

Definition timedOutError : error := errorsNew "error evicting pods, timed out".

Fixpoint setTask (ts : list Task) (i : nat) (t : Task) : list Task :=
  match ts, i with
  | [], _ => []
  | _ :: ts', O => t :: ts'
  | t0 :: ts', S i' => t0 :: setTask ts' i' t
  end.

(** The state once the goroutines are started (lines 93-106). *)
Definition evictPodsStart (pods : list Pod) : State :=
  {| coordinator := Collecting (List.length pods);
     tasks := map Evicting pods;
     results := [];
     abortClosed := false |}.

(** A [return] of [evictPods] runs the deferred [close(abort)]. *)
Definition returnWith (s : State) (err : option error) (results' : list (option error))
  : State :=
  {| coordinator := ReturnedWith err;
     tasks := tasks s;
     results := results';
     abortClosed := true |}.

Definition step (s : State) (l : Label) : option State :=
  match l with
  | EvictReturns i r =>
      (* the call [m.evictor.evict(p, abort)] of goroutine [i] returns [r] *)
      match nth_error (tasks s) i with
      | Some (Evicting _) =>
          Some {| coordinator := coordinator s;
                  tasks := setTask (tasks s) i (Sending r);
                  results := results s;
                  abortClosed := abortClosed s |}
      | _ => None
      end
  | TaskSends i =>
      (* [results <- r] goes through when the buffer has room *)
      match nth_error (tasks s) i with
      | Some (Sending r) =>
          if (List.length (results s) <? resultsCapacity)%nat
          then Some {| coordinator := coordinator s;
                       tasks := setTask (tasks s) i Exited;
                       results := results s ++ [r];
                       abortClosed := abortClosed s |}
          else None
      | _ => None
      end
  | CoordinatorReceives =>
      (* [case err := <-results] *)
      match coordinator s, results s with
      | Collecting (S remaining), Some err :: rest =>
          Some (returnWith s (Some (errorsWrap err "error evicting pod")) rest)
      | Collecting (S remaining), None :: rest =>
          Some {| coordinator := Collecting remaining;
                  tasks := tasks s;
                  results := rest;
                  abortClosed := abortClosed s |}
      | _, _ => None
      end
  | CoordinatorTimesOut =>
      (* [case <-timeout] *)
      match coordinator s with
      | Collecting (S remaining) => Some (returnWith s (Some timedOutError) (results s))
      | _ => None
      end
  | CoordinatorFinishes =>
      (* the loop is over: [return nil] *)
      match coordinator s with
      | Collecting O => Some (returnWith s None (results s))
      | _ => None
      end
  end.

(** A schedule run from a state; [None] when one of its moves is not
    possible. *)
Fixpoint run (s : State) (schedule : list Label) : option State :=
  match schedule with
  | [] => Some s
  | l :: schedule' =>
      match step s l with
      | Some s' => run s' schedule'
      | None => None
      end
  end.

Definition isExited (t : Task) : bool :=
  match t with Exited => true | _ => false end.

(** Goroutines that have finished, and goroutines that have not. *)
Definition exitedTasks (s : State) : nat :=
  List.length (filter isExited (tasks s)).

Definition liveTasks (s : State) : nat :=
  List.length (filter (fun t => negb (isExited t)) (tasks s)).

End kubernetes.


(** ** package main *)
Module main.
Import config.

(** [assertConfigValid].  (The [log.Fatal] calls of its two branches are
    not modelled.) *)
Definition assertConfigValid (config : Settings) : option error :=
  let configInvalid := false in
  let configInvalid :=
    if MinNodes config <=? 0 then true else configInvalid in
  let configInvalid :=
    if negb (Qle_bool 0 (FractionNodesToDelete config))
       || Qle_bool 1 (FractionNodesToDelete config)
    then true else configInvalid in
  if configInvalid then Some (errorsNew "configuration is invalid") else None.

(** The loop [for _, node := range reap] of [runGrimReaper]. *)
Fixpoint harvestLoop (reaper : reaper.theGrimReaper) (reap : list string)
    : M (option error) :=
  match reap with
  | [] => ret None
  | node :: reap' =>
      err <- reaper.Harvest reaper node ;;
      match err with
      | Some e => ret (Some e)
      | None => harvestLoop reaper reap'
      end
  end.

(** [runGrimReaper].  The node client that [intk8s.NewNodeInterface] builds
    from the cluster client is the argument [nodeClient]. *)
Definition runGrimReaper (config : Settings) (nodeClient : reaper.NodeInterface)
    (clock : reaper.Clock) : M (option error) :=
  let reaper := reaper.NewGrimReaper config nodeClient in
  r <- reaper.GetNodesToReap reaper clock ;;
  match r with
  | (_, _, Some err) => ret (Some err)
  | (reap, passover, None) =>
      err <- reaper.MarkNodesForDestruction reaper reap ;;
      match err with
      | Some e => ret (Some e)
      | None => harvestLoop reaper reap
      end
  end.

End main.


(** ** Vocabulary of the statements *)
Module runs.
Import config.

(** A name is picked when it is the name of the node some scan finds. *)
Definition PickedBy (allNodes : list reaper.Node) (x : string) : Prop :=
  exists now node,
    0 <= fst (reaper.scanOldest allNodes 0 [] now (-1)) /\
    nth_error allNodes (Z.to_nat (fst (reaper.scanOldest allNodes 0 [] now (-1)))) = Some node /\
    x = reaper.Name node.

(** The history after the first [k] nodes of [nodes] have been marked,
    starting from [h]. *)
Definition markedHistory (h : reaper.History) (nodes : list string) (k : nat)
  : reaper.History :=
  h ++ map reaper.CallMarkNodeToDrain (firstn k nodes).

(** The gateway's answer to the marking of node number [i], the nodes before
    it being marked. *)
Definition markAnswer (m : reaper.theGrimReaper) (h : reaper.History)
    (nodes : list string) (i : nat) : option error :=
  reaper.MarkNodeToDrain (reaper.nodeClient m) (markedHistory h nodes i) (nth i nodes "").

Section Eviction.
Variable m : kubernetes.kubernetesPodEvictor.
Variable abort : kubernetes.History -> bool.
Variable pod : kubernetes.Pod.

(** The eviction request [evict] sends for [pod]. *)
Definition evictRequest : kubernetes.Call :=
  kubernetes.CallPodsEvict (kubernetes.Namespace pod) (kubernetes.Name pod)
    (kubernetes.terminationGracePeriodOf m pod).

(** The history after [k] rounds of request and 5-second sleep. *)
Definition retried (h : kubernetes.History) (k : nat) : kubernetes.History :=
  h ++ List.concat (repeat [evictRequest; kubernetes.CallTimeSleep (5 * Second)] k).

(** The gateway's response to the request sent after [k] such rounds. *)
Definition responseAt (h : kubernetes.History) (k : nat) : option error :=
  kubernetes.PodsEvict (kubernetes.client m) (retried h k)
    (kubernetes.Namespace pod) (kubernetes.Name pod)
    (kubernetes.terminationGracePeriodOf m pod).

(** The first [k] requests all found [abort] open and were answered with
    too-many-requests. *)
Definition Throttled (h : kubernetes.History) (k : nat) : Prop :=
  forall j, (j < k)%nat ->
    abort (retried h j) = false /\
    exists e, responseAt h j = Some e /\ IsTooManyRequests e = true.

End Eviction.

(** What holds of every state [evictPods] reaches on [k] pods: the buffer
    never exceeds its capacity, and while the coordinator collects, the tasks
    that have exited are those whose result it has received or is in the
    buffer. *)
Definition Accounted (k : nat) (s : kubernetes.State) : Prop :=
  List.length (kubernetes.tasks s) = k /\
  (List.length (kubernetes.results s) <= kubernetes.resultsCapacity)%nat /\
  match kubernetes.coordinator s with
  | kubernetes.Collecting remaining =>
      (kubernetes.exitedTasks s + remaining = k + List.length (kubernetes.results s))%nat
  | kubernetes.ReturnedWith _ => True
  end.

End runs.

(** ** Concrete clusters *)
Module scenarios.
Import config.

Definition settingsWith (minNodes maxNodesDelete : Z) (fraction : Q) : Settings :=
  {| MinNodes := minNodes;
     MaxNodesDelete := maxNodesDelete;
     FractionNodesToDelete := fraction;
     NodeLabelSelector := "";
     DealBreakerPodLabels := "";
     EvictionTimeout := 300 * Second;
     GracefulTermination := 60 * Second;
     EvictDeletionTimeout := 300 * Second;
     DelayAfterCordon := 60 * Second |}.

(** The defaults of the command line: [min-nodes] 3, [max-nodes-delete] 2,
    [harvest-fraction] 0.05. *)
Definition defaultSettings : Settings := settingsWith 3 2 (5 # 100).

Definition fourNodes : list reaper.Node :=
  [ {| reaper.Name := "b"; reaper.CreationTimestamp := 20 |};
    {| reaper.Name := "a"; reaper.CreationTimestamp := 10 |};
    {| reaper.Name := "c"; reaper.CreationTimestamp := 30 |};
    {| reaper.Name := "d"; reaper.CreationTimestamp := 40 |} ].

Definition oneNode : list reaper.Node :=
  [ {| reaper.Name := "b"; reaper.CreationTimestamp := 20 |} ].

(** A gateway that lists [items], answers the deal-breaker query by
    [dealBreak], the cordon and marking requests by [cordon] and [mark], and
    drains without error. *)
Definition gateway (items : list reaper.Node)
    (dealBreak : reaper.History -> string -> bool)
    (mark cordon : reaper.History -> string -> option error)
    : reaper.NodeInterface :=
  {| reaper.ListNodes := fun _ _ => (items, None);
     reaper.HasDealBreakerPods := fun h n => (dealBreak h n, None);
     reaper.CordonNode := cordon;
     reaper.MarkNodeToDrain := mark;
     reaper.DrainNode := fun _ _ => None |}.

Definition never : reaper.History -> string -> bool := fun _ _ => false.
Definition succeed : reaper.History -> string -> option error := fun _ _ => None.

Definition serverError : error := StatusError (StatusReasonOther 500) "internal error".
Definition notFoundError : error := StatusError StatusReasonNotFound "not found".
Definition throttleError : error := StatusError StatusReasonTooManyRequests "too many requests".

(** No deal-breaker pods, every write succeeds. *)
Definition quietGateway (items : list reaper.Node) : reaper.NodeInterface :=
  gateway items never succeed succeed.

(** Every cordon request is refused. *)
Definition noCordonGateway (items : list reaper.Node) : reaper.NodeInterface :=
  gateway items never succeed (fun _ _ => Some serverError).

(** The deal-breaker query is answered yes exactly at query number [k]
    (counting the queries already in the history). *)
Definition isQuery (c : reaper.Call) : bool :=
  match c with reaper.CallHasDealBreakerPods _ => true | _ => false end.

Definition dealBreakAtQuery (k : nat) : reaper.History -> string -> bool :=
  fun h _ => Nat.eqb (List.length (filter isQuery h)) k.

(** Marking fails for the node named [bad]. *)
Definition markFailsFor (bad : string) : reaper.History -> string -> option error :=
  fun _ n => if String.eqb n bad then Some serverError else None.

Definition noon : reaper.Clock := fun _ => 100.

Definition daemonPod : kubernetes.Pod :=
  {| kubernetes.Namespace := "kube-system";
     kubernetes.Name := "proxy-1";
     kubernetes.OwnerReferences :=
       [ {| kubernetes.Kind := "DaemonSet";
            kubernetes.OwnerName := "proxy";
            kubernetes.Controller := Some true |} ];
     kubernetes.TerminationGracePeriodSeconds := Some 30 |}.

Definition plainPod : kubernetes.Pod :=
  {| kubernetes.Namespace := "default";
     kubernetes.Name := "web-1";
     kubernetes.OwnerReferences := [];
     kubernetes.TerminationGracePeriodSeconds := None |}.

(** An evictor over a client that answers the DaemonSet lookup by [lookup]
    and the eviction request by [eviction]. *)
Definition evictorWith (lookup eviction : kubernetes.History -> option error)
    : kubernetes.kubernetesPodEvictor :=
  {| kubernetes.dryRun := false;
     kubernetes.client :=
       {| kubernetes.DaemonSetsGet := fun h _ _ => lookup h;
          kubernetes.PodsEvict := fun h _ _ _ => eviction h |};
     kubernetes.settings := defaultSettings |}.

(** Two too-many-requests responses, then not-found. *)
Definition throttledTwice : kubernetes.History -> option error :=
  fun h => if (List.length h <? 4)%nat then Some throttleError else Some notFoundError.

End scenarios.


(** ** package kubernetes: the node client *)
Module kubernetesNode.
Import config.

(** Requests of the node client: two listings through the cluster client,
    the guard of the evictor (an interface value), and the start of
    [evictPods]. *)
Inductive Call :=
| CallNodesList (labelSelector : string)
| CallPodsList (nodeName : string)
| CallShouldEvict (pod : kubernetes.Pod)
| CallEvictPods (nodeName : string) (pods : list kubernetes.Pod).

Definition History := list Call.

(** [kubernetes.Interface], restricted to the two listings. *)
Record Interface := {
  NodesList : History -> string -> list reaper.Node * option error;
  PodsList : History -> string -> list kubernetes.Pod * option error
}.

(** [PodEvictor], as [listPodsToEvict] uses it. *)
Record PodEvictor := {
  shouldEvict : History -> kubernetes.Pod -> bool
}.

Record kubernetesNodeInterface := {
  dryRun : bool;
  client : Interface;
  evictor : PodEvictor;
  settings : Settings
}.

Section NodeClient.
Variable m : kubernetesNodeInterface.

(** [ListNodes] *)
Definition ListNodes (labelSelector : string) : M (list reaper.Node * option error) :=
  r <- invoke (CallNodesList labelSelector)
         (fun h => NodesList (client m) h labelSelector) ;;
  match r with
  | (_, Some err) => ret ([], Some (errorsWrap err "error listing nodes"))
  | (nodes, None) => ret (nodes, None)
  end.

(** Lines 81-86: the loop [for _, pod := range pods.Items]. *)
Fixpoint filterPods (items evictPods : list kubernetes.Pod) : M (list kubernetes.Pod) :=
  match items with
  | [] => ret evictPods
  | pod :: items' =>
      should <- invoke (CallShouldEvict pod) (fun h => shouldEvict (evictor m) h pod) ;;
      filterPods items' (if should then append evictPods [pod] else evictPods)
  end.

(** [listPodsToEvict] *)
Definition listPodsToEvict (nodeName : string)
    : M (list kubernetes.Pod * option error) :=
  r <- invoke (CallPodsList nodeName) (fun h => PodsList (client m) h nodeName) ;;
  match r with
  | (_, Some err) => ret ([], Some err)
  | (pods, None) =>
      evictPods <- filterPods pods [] ;;
      ret (evictPods, None)
  end.

(** The error a call of [evictPods] returns.  The call runs goroutines, its
    runs are those of [kubernetes.step]; here only its result is needed. *)
Variable evictPods : History -> string -> list kubernetes.Pod -> option error.

(** [DrainNode] *)
Definition DrainNode (name : string) : M (option error) :=
  if dryRun m then ret None
  else
    r <- listPodsToEvict name ;;
    match r with
    | (_, Some err) => ret (Some err)
    | (podsToDrain, None) =>
        err <- invoke (CallEvictPods name podsToDrain)
                 (fun h => evictPods h name podsToDrain) ;;
        ret err
    end.

End NodeClient.
End kubernetesNode.

(** ** More vocabulary *)
Module histories.
Import config.

(** The requests of one complete harvest of [node]. *)
Definition harvestCalls (config : Settings) (node : string) : list reaper.Call :=
  [reaper.CallCordonNode node;
   reaper.CallTimeSleep (DelayAfterCordon config);
   reaper.CallDrainNode node].

(** The calls selection makes. *)
Definition isSelectionCall (c : reaper.Call) : bool :=
  match c with
  | reaper.CallListNodes _ | reaper.CallTimeNow | reaper.CallHasDealBreakerPods _ => true
  | _ => false
  end.

(** No [evict] call of the schedule returns an error. *)
Definition evictsReturnNil (schedule : list kubernetes.Label) : Prop :=
  forall i r, In (kubernetes.EvictReturns i r) schedule -> r = None.

(** The guard's answers to [pods], asked one after the other from [h]. *)
Fixpoint guardAnswers (m : kubernetesNode.kubernetesNodeInterface)
    (h : kubernetesNode.History) (pods : list kubernetes.Pod) : list bool :=
  match pods with
  | [] => []
  | pod :: pods' =>
      kubernetesNode.shouldEvict (kubernetesNode.evictor m) h pod
      :: guardAnswers m (h ++ [kubernetesNode.CallShouldEvict pod]) pods'
  end.

(** The pods whose answer is yes. *)
Fixpoint keep {A} (xs : list A) (answers : list bool) : list A :=
  match xs, answers with
  | x :: xs', b :: answers' => if b then x :: keep xs' answers' else keep xs' answers'
  | _, _ => []
  end.

End histories.

(** ** More concrete clusters *)
Module moreScenarios.
Import config scenarios.

(** The deal-breaker query fails at query number [k]. *)
Definition queryFailsAt (items : list reaper.Node) (k : nat) : reaper.NodeInterface :=
  {| reaper.ListNodes := fun _ _ => (items, None);
     reaper.HasDealBreakerPods :=
       fun h _ => (false,
                   if Nat.eqb (List.length (filter isQuery h)) k
                   then Some serverError else None);
     reaper.CordonNode := succeed;
     reaper.MarkNodeToDrain := succeed;
     reaper.DrainNode := succeed |}.

(** A node client over a cluster that lists [pods] on every node and a guard
    that lets every pod go but those controlled by a DaemonSet. *)
Definition nodeClientWith (dry : bool) (pods : list kubernetes.Pod)
    : kubernetesNode.kubernetesNodeInterface :=
  {| kubernetesNode.dryRun := dry;
     kubernetesNode.client :=
       {| kubernetesNode.NodesList := fun _ _ => (fourNodes, None);
          kubernetesNode.PodsList := fun _ _ => (pods, None) |};
     kubernetesNode.evictor :=
       {| kubernetesNode.shouldEvict :=
            fun _ pod => negb (fst (kubernetes.getPodDaemonSet pod)) |};
     kubernetesNode.settings := defaultSettings |}.

End moreScenarios.


(** * Properties *)

(** ** The number of nodes to reap *)
Section Target.
Import config reaper main scenarios.

Lemma int64_id (z : Z) : IntRange z -> int64 z = z.
Proof.
  unfold IntRange, int64. intros Hz.
  rewrite Z.mod_small; lia.
Qed.

(** What a configuration that passes [assertConfigValid] satisfies. *)
Lemma assertConfigValid_nil (config : Settings) :
  assertConfigValid config = None ->
  0 < MinNodes config /\
  0 <= Qnum (FractionNodesToDelete config) < Zpos (Qden (FractionNodesToDelete config)).
Proof.
  unfold assertConfigValid.
  destruct (MinNodes config <=? 0) eqn:Hmin.
  - destruct (_ || _); discriminate.
  - destruct (Qle_bool 0 (FractionNodesToDelete config)) eqn:H0; simpl;
      [|discriminate].
    destruct (Qle_bool 1 (FractionNodesToDelete config)) eqn:H1; simpl;
      [discriminate|].
    intros _. apply Z.leb_gt in Hmin.
    unfold Qle_bool in H0, H1. simpl in H0, H1.
    apply Z.leb_le in H0. apply Z.leb_gt in H1. lia.
Qed.

Lemma truncatedProduct_bounds (fraction : Q) (numNodes : Z) :
  0 <= Qnum fraction < Zpos (Qden fraction) -> 0 <= numNodes ->
  0 <= truncatedProduct fraction numNodes <= numNodes.
Proof.
  intros Hf Hn. unfold truncatedProduct.
  rewrite Z.quot_div_nonneg by nia.
  split.
  - apply Z.div_pos; nia.
  - apply Z.div_le_upper_bound; nia.
Qed.

(** The clamps, for any value [nodesToReap] of the truncated product: the
    result is at most [MaxNodesDelete] and leaves [MinNodes] nodes, and it is
    not negative when the product is not, the cluster has [MinNodes] nodes
    and [MaxNodesDelete] is not negative. *)
Lemma clampNodesToReap_bounds (config : Settings) (numNodes nodesToReap : Z) :
  WellTyped config ->
  IntRange (numNodes - nodesToReap) ->
  IntRange (numNodes - MinNodes config) ->
  clampNodesToReap config numNodes nodesToReap <= MaxNodesDelete config /\
  numNodes - clampNodesToReap config numNodes nodesToReap >= MinNodes config /\
  (0 <= nodesToReap -> MinNodes config <= numNodes -> 0 <= MaxNodesDelete config ->
   0 <= clampNodesToReap config numNodes nodesToReap).
Proof.
  intros [Hmin Hmax] H1 H2. unfold clampNodesToReap.
  rewrite !int64_id by assumption.
  destruct (numNodes - nodesToReap <? MinNodes config) eqn:Hc;
    [apply Z.ltb_lt in Hc | apply Z.ltb_ge in Hc];
    match goal with |- context [?a >? ?b] => destruct (Z.gtb_spec a b) end; lia.
Qed.

(** C3, as amended: for every node count [numNodes] and every valid
    configuration, the number of nodes to reap is at most [MaxNodesDelete] and
    leaves at least [MinNodes] nodes; it is non-negative when moreover the
    cluster has at least [MinNodes] nodes and [MaxNodesDelete] is not
    negative. *)
Theorem nodesToReapOf_bounds (config : Settings) (numNodes : Z) :
  WellTyped config ->
  0 <= numNodes < 2 ^ 63 ->
  assertConfigValid config = None ->
  nodesToReapOf config numNodes <= MaxNodesDelete config /\
  numNodes - nodesToReapOf config numNodes >= MinNodes config /\
  (MinNodes config <= numNodes -> 0 <= MaxNodesDelete config ->
   0 <= nodesToReapOf config numNodes).
Proof.
  intros Hwt Hn Hvalid.
  apply assertConfigValid_nil in Hvalid. destruct Hvalid as [Hpos Hf].
  pose proof (truncatedProduct_bounds _ numNodes Hf (proj1 Hn)) as Ht.
  unfold nodesToReapOf.
  destruct (clampNodesToReap_bounds config numNodes
              (truncatedProduct (FractionNodesToDelete config) numNodes) Hwt)
    as (Hle & Hge & Hlow).
  - unfold IntRange; lia.
  - destruct Hwt as [Hmin _]. unfold IntRange in *. lia.
  - split; [exact Hle|]. split; [exact Hge|].
    intros Hcluster Hmax. apply Hlow; [apply Ht | exact Hcluster | exact Hmax].
Qed.

(** Scenario A of the specification: 20 nodes, fraction 0.1, 18 nodes to
    keep, at most 5 to delete. *)
Lemma nodesToReapOf_bounds_witness :
  nodesToReapOf (settingsWith 18 5 (1 # 10)) 20 <= 5 /\
  20 - nodesToReapOf (settingsWith 18 5 (1 # 10)) 20 >= 18 /\
  0 <= nodesToReapOf (settingsWith 18 5 (1 # 10)) 20.
Proof.
  destruct (nodesToReapOf_bounds (settingsWith 18 5 (1 # 10)) 20) as (H1 & H2 & H3).
  - unfold WellTyped, IntRange; simpl; lia.
  - lia.
  - reflexivity.
  - split; [exact H1|]. split; [exact H2|]. apply H3; simpl; lia.
Defined.

(** C3 as stated fails: with the default configuration and a single node the
    number of nodes to reap is -2. *)
Lemma nodesToReapOf_negative_below_minNodes :
  assertConfigValid defaultSettings = None /\
  WellTyped defaultSettings /\
  nodesToReapOf defaultSettings 1 = -2 /\
  (0 <=? nodesToReapOf defaultSettings 1) = false.
Proof.
  split; [reflexivity|]. split.
  - unfold WellTyped, IntRange; simpl; lia.
  - split; reflexivity.
Qed.

End Target.

(** ** Selection *)
Section SelectionProperties.
Import config reaper main scenarios runs.

Lemma len_cons {A} (a : A) (s : list A) : len (a :: s) = 1 + len s.
Proof. unfold len. simpl List.length. lia. Qed.

Lemma len_nonneg {A} (s : list A) : 0 <= len s.
Proof. unfold len. lia. Qed.

(** With nothing considered, the scan leaves [lowestIndex] as it was or sets
    it to an index of the part scanned. *)
Lemma scanOldest_index_or (items : list Node) :
  forall i oldest lowestIndex,
    fst (scanOldest items i [] oldest lowestIndex) = lowestIndex \/
    i <= fst (scanOldest items i [] oldest lowestIndex) < i + len items.
Proof.
  induction items as [|n rest IH]; intros i oldest lowestIndex; simpl.
  - now left.
  - rewrite len_cons. pose proof (len_nonneg rest).
    destruct (Before (CreationTimestamp n) oldest).
    + right. destruct (IH (i + 1) (CreationTimestamp n) i) as [-> | Hr]; lia.
    + destruct (IH (i + 1) oldest lowestIndex) as [-> | Hr]; [now left | right; lia].
Qed.

Lemma scanOldest_index (items : list Node) :
  forall i oldest lowestIndex,
    (exists n, In n items /\ Before (CreationTimestamp n) oldest = true) ->
    i <= fst (scanOldest items i [] oldest lowestIndex) < i + len items.
Proof.
  induction items as [|n rest IH]; intros i oldest lowestIndex [x [Hin Hx]].
  - destruct Hin.
  - simpl. rewrite len_cons. pose proof (len_nonneg rest).
    destruct (Before (CreationTimestamp n) oldest) eqn:Hn.
    + destruct (scanOldest_index_or rest (i + 1) (CreationTimestamp n) i) as [-> | Hr]; lia.
    + destruct Hin as [-> | Hin]; [congruence|].
      specialize (IH (i + 1) oldest lowestIndex (ex_intro _ x (conj Hin Hx))). lia.
Qed.

Lemma index_in_bounds {E A} (s : list A) (i : Z) (h : list E) :
  0 <= i < len s -> exists a, index s i h = (Ok a, h).
Proof.
  intros Hi. unfold index.
  destruct (Z.leb_spec 0 i); [|lia]. destruct (Z.ltb_spec i (len s)); [|lia].
  simpl. destruct (nth_error s (Z.to_nat i)) eqn:Hn.
  - now exists a.
  - apply nth_error_None in Hn. unfold len in *. lia.
Qed.

(** The loop keeps [consideredNodes] empty, so each of its scans finds an
    index as soon as some node is older than the clock. *)
Lemma reapLoop_never_panics (m : theGrimReaper) (clock : Clock)
    (allNodes : list Node) (nodesToReap : Z) :
  (forall h, exists n, In n allNodes /\ Before (CreationTimestamp n) (clock h) = true) ->
  forall iterations reap passover h,
    fst (reapLoop m clock iterations allNodes nodesToReap [] reap passover h) <> Panicked.
Proof.
  intros Hold. induction iterations as [|x iterations IH]; intros reap passover h.
  - discriminate.
  - simpl. unfold bind at 1. unfold timeNow, invoke at 1.
    pose proof (scanOldest_index allNodes 0 (clock h) (-1) (Hold h)) as Hb.
    destruct (index_in_bounds (E := Call) allNodes _ (h ++ [CallTimeNow]) Hb) as [node Hnode].
    unfold bind at 1. rewrite Hnode.
    unfold bind at 1, invoke at 1.
    destruct (HasDealBreakerPods _ _ _) as [dealBreak [err|]].
    + discriminate.
    + destruct (len _ =? nodesToReap); [discriminate | apply IH].
Qed.

(** C9: when the node list holds a node created strictly before the time of
    a scan, the [lowestIndex] that scan of [GetNodesToReap] ends with is an
    index of the list (not -1); and when that is so at every reading of the
    clock, no access [allNodes.Items[lowestIndex]] of the run faults. *)
Theorem GetNodesToReap_lowestIndex_in_bounds (m : theGrimReaper) (clock : Clock)
    (h : History) (allNodes : list Node) :
  ListNodes (nodeClient m) h (NodeLabelSelector (config m)) = (allNodes, None) ->
  (forall now,
     (exists n, In n allNodes /\ Before (CreationTimestamp n) now = true) ->
     0 <= fst (scanOldest allNodes 0 [] now (-1)) < len allNodes) /\
  ((forall h', exists n, In n allNodes /\ Before (CreationTimestamp n) (clock h') = true) ->
   fst (GetNodesToReap m clock h) <> Panicked).
Proof.
  intros Hlist. split.
  - intros now Hold. apply (scanOldest_index allNodes 0 now (-1) Hold).
  - intros Hold. unfold GetNodesToReap, bind at 1, invoke at 1.
    rewrite Hlist. now apply reapLoop_never_panics.
Qed.

Lemma GetNodesToReap_lowestIndex_in_bounds_witness :
  0 <= fst (scanOldest fourNodes 0 [] 100 (-1)) < len fourNodes /\
  fst (GetNodesToReap (NewGrimReaper defaultSettings (quietGateway fourNodes)) noon [])
    <> Panicked.
Proof.
  assert (Hold : exists n, In n fourNodes /\ Before (CreationTimestamp n) 100 = true).
  { exists {| Name := "a"; CreationTimestamp := 10 |}. split; [simpl; tauto | reflexivity]. }
  destruct (GetNodesToReap_lowestIndex_in_bounds
              (NewGrimReaper defaultSettings (quietGateway fourNodes)) noon [] fourNodes
              eq_refl) as [Hscan Hrun].
  split.
  - exact (Hscan 100 Hold).
  - apply Hrun. intros h'. exact Hold.
Defined.

Lemma index_cases {E A} (s : list A) (i : Z) (h : list E) :
  index s i h = (Panicked, h) \/
  exists a, 0 <= i < len s /\ nth_error s (Z.to_nat i) = Some a /\ index s i h = (Ok a, h).
Proof.
  unfold index.
  destruct (Z.leb_spec 0 i); [|now left].
  destruct (Z.ltb_spec i (len s)); [|now left]. simpl.
  destruct (nth_error s (Z.to_nat i)) as [a|]; [|now left].
  right. exists a. repeat split; try lia.
Qed.

(** A scan that moves [lowestIndex] has met a node older than its bound. *)
Lemma scanOldest_found (items : list Node) :
  forall i oldest lowestIndex,
    fst (scanOldest items i [] oldest lowestIndex) <> lowestIndex ->
    exists n, In n items /\ Before (CreationTimestamp n) oldest = true.
Proof.
  induction items as [|n rest IH]; intros i oldest lowestIndex Hmoved; simpl in Hmoved.
  - congruence.
  - destruct (Before (CreationTimestamp n) oldest) eqn:Hn.
    + exists n. split; [now left | exact Hn].
    + destruct (IH _ _ _ Hmoved) as (x & Hin & Hx). exists x. split; [now right | exact Hx].
Qed.

(** With nothing considered, the index found does not depend on the bound the
    scan starts from, as long as some node is older than it. *)
Lemma scanOldest_same (items : list Node) :
  forall i oldest oldest' lowestIndex lowestIndex',
    (exists n, In n items /\ Before (CreationTimestamp n) oldest = true
               /\ Before (CreationTimestamp n) oldest' = true) ->
    fst (scanOldest items i [] oldest lowestIndex)
    = fst (scanOldest items i [] oldest' lowestIndex').
Proof.
  unfold Before.
  induction items as [|n rest IH];
    intros i oldest oldest' li li' (x & Hin & H1 & H2).
  - destruct Hin.
  - apply Z.ltb_lt in H1, H2. simpl. unfold Before.
    destruct (Z.ltb_spec (CreationTimestamp n) oldest) as [Ha|Ha];
      destruct (Z.ltb_spec (CreationTimestamp n) oldest') as [Hb|Hb]; simpl.
    + reflexivity.
    + destruct Hin as [-> | Hin]; [lia|].
      apply IH. exists x. rewrite !Z.ltb_lt. repeat split; [exact Hin | lia | lia].
    + destruct Hin as [-> | Hin]; [lia|].
      apply IH. exists x. rewrite !Z.ltb_lt. repeat split; [exact Hin | lia | lia].
    + destruct Hin as [-> | Hin]; [lia|].
      apply IH. exists x. rewrite !Z.ltb_lt. repeat split; [exact Hin | lia | lia].
Qed.

(** Two scans of the loop that find a node find the same one. *)
Lemma scanOldest_unique (items : list Node) (now now' : Time) :
  0 <= fst (scanOldest items 0 [] now (-1)) ->
  0 <= fst (scanOldest items 0 [] now' (-1)) ->
  fst (scanOldest items 0 [] now (-1)) = fst (scanOldest items 0 [] now' (-1)).
Proof.
  intros H H'.
  destruct (scanOldest_found items 0 now (-1)) as (x & Hx & Hxt); [lia|].
  destruct (scanOldest_found items 0 now' (-1)) as (y & Hy & Hyt); [lia|].
  unfold Before in *. apply Z.ltb_lt in Hxt, Hyt.
  apply scanOldest_same.
  destruct (Z.le_gt_cases (CreationTimestamp x) (CreationTimestamp y)).
  - exists x. unfold Before. rewrite !Z.ltb_lt. repeat split; [exact Hx | lia | lia].
  - exists y. unfold Before. rewrite !Z.ltb_lt. repeat split; [exact Hy | lia | lia].
Qed.

Lemma reapLoop_names_picked (m : theGrimReaper) (clock : Clock)
    (allNodes : list Node) (nodesToReap : Z) :
  forall iterations reap passover h reap' passover' h',
    reapLoop m clock iterations allNodes nodesToReap [] reap passover h
    = (Ok (reap', passover', None), h') ->
    (forall x, In x (reap ++ passover) -> PickedBy allNodes x) ->
    forall x, In x (reap' ++ passover') -> PickedBy allNodes x.
Proof.
  induction iterations as [|it iterations IH];
    intros reap passover h reap' passover' h' Hrun Hinv.
  - injection Hrun as <- <- _. exact Hinv.
  - simpl in Hrun. unfold bind at 1 in Hrun. unfold timeNow, invoke at 1 in Hrun.
    unfold bind at 1 in Hrun.
    destruct (index_cases (E := Call) allNodes
                (fst (scanOldest allNodes 0 [] (clock h) (-1))) (h ++ [CallTimeNow]))
      as [Hp | (node & Hb & Hnth & Hix)]; rewrite ?Hp, ?Hix in Hrun; [discriminate|].
    unfold bind at 1, invoke at 1 in Hrun.
    assert (Hpick : PickedBy allNodes (Name node)).
    { exists (clock h), node. repeat split; [lia | exact Hnth]. }
    destruct (HasDealBreakerPods _ _ _) as [dealBreak [err|]]; [discriminate|].
    assert (Hinv' : forall x,
               In x ((if dealBreak then reap else append reap [Name node]) ++
                     (if dealBreak then append passover [Name node] else passover)) ->
               PickedBy allNodes x).
    { intros x Hx. unfold append in Hx.
      destruct dealBreak; rewrite !in_app_iff in Hx; simpl in Hx.
      - destruct Hx as [Hx | [Hx | [<- | []]]];
          [apply Hinv; rewrite in_app_iff; now left
          |apply Hinv; rewrite in_app_iff; now right
          |exact Hpick].
      - destruct Hx as [[Hx | [<- | []]] | Hx];
          [apply Hinv; rewrite in_app_iff; now left
          |exact Hpick
          |apply Hinv; rewrite in_app_iff; now right]. }
    destruct (len _ =? nodesToReap).
    + injection Hrun as <- <- _. exact Hinv'.
    + exact (IH _ _ _ _ _ _ Hrun Hinv').
Qed.

(** X1: whatever the cluster, the gateway and the clock, all names a
    selection returns, in [reap] and in [passover], are one and the same
    name. *)
Theorem GetNodesToReap_returns_one_name (m : theGrimReaper) (clock : Clock)
    (h h' : History) (reap passover : list string) :
  GetNodesToReap m clock h = (Ok (reap, passover, None), h') ->
  forall x y, In x (reap ++ passover) -> In y (reap ++ passover) -> x = y.
Proof.
  unfold GetNodesToReap, bind at 1, invoke at 1.
  destruct (ListNodes _ _ _) as [allNodes [err|]]; [discriminate|].
  intros Hrun x y Hx Hy.
  pose proof (reapLoop_names_picked m clock allNodes _ allNodes [] [] _ reap passover h' Hrun)
    as Hpicked.
  destruct (Hpicked (fun z Hz => match Hz with end) x Hx) as (now & n & Hb & Hn & ->).
  destruct (Hpicked (fun z Hz => match Hz with end) y Hy) as (now' & n' & Hb' & Hn' & ->).
  rewrite (scanOldest_unique allNodes now now' Hb Hb') in Hn.
  congruence.
Qed.

Lemma len_append_one {A} (s : list A) (a : A) : len (append s [a]) = len s + 1.
Proof. unfold len, append. rewrite length_app. simpl. lia. Qed.

(** While fewer than [nodesToReap] names are in [reap], the loop returns at
    most [nodesToReap] of them. *)
Lemma reapLoop_at_most (m : theGrimReaper) (clock : Clock)
    (allNodes : list Node) (nodesToReap : Z) :
  forall iterations consideredNodes reap passover h reap' passover' h',
    len reap < nodesToReap ->
    reapLoop m clock iterations allNodes nodesToReap consideredNodes reap passover h
    = (Ok (reap', passover', None), h') ->
    len reap' <= nodesToReap.
Proof.
  induction iterations as [|it iterations IH];
    intros consideredNodes reap passover h reap' passover' h' Hlt Hrun.
  - injection Hrun as <- _ _. lia.
  - simpl in Hrun. unfold bind at 1 in Hrun. unfold timeNow, invoke at 1 in Hrun.
    unfold bind at 1 in Hrun.
    destruct (index_cases (E := Call) allNodes
                (fst (scanOldest allNodes 0 consideredNodes (clock h) (-1)))
                (h ++ [CallTimeNow]))
      as [Hp | (node & Hb & Hnth & Hix)]; rewrite ?Hp, ?Hix in Hrun; [discriminate|].
    unfold bind at 1, invoke at 1 in Hrun.
    destruct (HasDealBreakerPods _ _ _) as [dealBreak [err|]]; [discriminate|].
    destruct (Z.eqb_spec (len (if dealBreak then reap else append reap [Name node]))
                nodesToReap) as [Heq | Hne].
    + injection Hrun as <- _ _. lia.
    + apply (IH _ _ _ _ _ _ _) with (2 := Hrun).
      destruct dealBreak; [exact Hlt | rewrite len_append_one in *; lia].
Qed.

(** X2: when at least one node is to be reaped, no more names than that
    are returned in [reap]. *)
Theorem GetNodesToReap_at_most_target (m : theGrimReaper) (clock : Clock)
    (h h' : History) (allNodes : list Node) (reap passover : list string) :
  ListNodes (nodeClient m) h (NodeLabelSelector (config m)) = (allNodes, None) ->
  0 < nodesToReapOf (config m) (len allNodes) ->
  GetNodesToReap m clock h = (Ok (reap, passover, None), h') ->
  len reap <= nodesToReapOf (config m) (len allNodes).
Proof.
  intros Hlist Hpos. unfold GetNodesToReap, bind at 1, invoke at 1. rewrite Hlist.
  apply reapLoop_at_most. exact Hpos.
Qed.

(** C1, at a failing input: four nodes of which "a" is the oldest, half of
    them to reap.  The node "a" is picked at both steps and its name is
    appended to [reap] twice. *)
Theorem GetNodesToReap_picks_oldest_twice :
  nodesToReapOf (settingsWith 1 5 (1 # 2)) (len fourNodes) = 2 /\
  GetNodesToReap (NewGrimReaper (settingsWith 1 5 (1 # 2)) (quietGateway fourNodes)) noon []
  = (Ok (["a"; "a"], [], None),
     [CallListNodes ""; CallTimeNow; CallHasDealBreakerPods "a";
      CallTimeNow; CallHasDealBreakerPods "a"]).
Proof. split; reflexivity. Qed.

(** C2, at two failing inputs.  A single node under the default
    configuration gives -2 nodes to reap, and a fraction of exactly 0 gives 0;
    in both runs the deal-breaker query is sent and [reap] is not empty. *)
Theorem GetNodesToReap_nonpositive_target_still_selects :
  assertConfigValid defaultSettings = None /\
  nodesToReapOf defaultSettings (len oneNode) = -2 /\
  GetNodesToReap (NewGrimReaper defaultSettings (quietGateway oneNode)) noon []
  = (Ok (["b"], [], None),
     [CallListNodes ""; CallTimeNow; CallHasDealBreakerPods "b"]) /\
  assertConfigValid (settingsWith 1 5 0) = None /\
  nodesToReapOf (settingsWith 1 5 0) (len fourNodes) = 0 /\
  GetNodesToReap (NewGrimReaper (settingsWith 1 5 0) (quietGateway fourNodes)) noon []
  = (Ok (["a"; "a"; "a"; "a"], [], None),
     [CallListNodes ""; CallTimeNow; CallHasDealBreakerPods "a";
      CallTimeNow; CallHasDealBreakerPods "a";
      CallTimeNow; CallHasDealBreakerPods "a";
      CallTimeNow; CallHasDealBreakerPods "a"]).
Proof. repeat split; reflexivity. Qed.

(** C8, at a failing input: four nodes, a fraction of 0 (so 0 nodes to
    reap), and a deal-breaker pod on "a" at the second query only.  The name
    "a" is returned in both [reap] and [passover], and [reap] holds three
    names. *)
Theorem GetNodesToReap_overlap_and_overrun :
  nodesToReapOf (settingsWith 1 5 0) (len fourNodes) = 0 /\
  fst (GetNodesToReap
         (NewGrimReaper (settingsWith 1 5 0)
            (gateway fourNodes (dealBreakAtQuery 1) succeed succeed)) noon [])
  = Ok (["a"; "a"; "a"], ["a"], None).
Proof. split; reflexivity. Qed.

End SelectionProperties.

(** ** Marking and harvesting *)
Section HarvestProperties.
Import config reaper main scenarios runs.

Lemma markedHistory_cons (h : History) (n : string) (nodes : list string) (k : nat) :
  markedHistory h (n :: nodes) (S k) = markedHistory (h ++ [CallMarkNodeToDrain n]) nodes k.
Proof. unfold markedHistory. simpl. now rewrite <- app_assoc. Qed.

Lemma markAnswer_cons (m : theGrimReaper) (h : History) (n : string)
    (nodes : list string) (i : nat) :
  markAnswer m h (n :: nodes) (S i) = markAnswer m (h ++ [CallMarkNodeToDrain n]) nodes i.
Proof. unfold markAnswer. now rewrite markedHistory_cons. Qed.

Lemma markAnswer_head (m : theGrimReaper) (h : History) (n : string) (nodes : list string) :
  markAnswer m h (n :: nodes) 0 = MarkNodeToDrain (nodeClient m) h n.
Proof. unfold markAnswer, markedHistory. simpl. now rewrite app_nil_r. Qed.

Lemma MarkNodesForDestruction_cons (m : theGrimReaper) (n : string)
    (nodes : list string) (h : History) :
  MarkNodesForDestruction m (n :: nodes) h =
  match MarkNodeToDrain (nodeClient m) h n with
  | Some e => (Ok (Some e), h ++ [CallMarkNodeToDrain n])
  | None => MarkNodesForDestruction m nodes (h ++ [CallMarkNodeToDrain n])
  end.
Proof.
  simpl. unfold bind, invoke.
  destruct (MarkNodeToDrain (nodeClient m) h n); reflexivity.
Qed.

(** The run of [MarkNodesForDestruction] in terms of the number [k] of
    marking requests it sends. *)
Lemma MarkNodesForDestruction_run (m : theGrimReaper) (nodes : list string) :
  forall h, exists k,
    (k <= List.length nodes)%nat /\
    snd (MarkNodesForDestruction m nodes h) = markedHistory h nodes k /\
    (forall i, (i + 1 < k)%nat -> markAnswer m h nodes i = None) /\
    ((fst (MarkNodesForDestruction m nodes h) = Ok None /\
      k = List.length nodes /\
      forall i, (i < k)%nat -> markAnswer m h nodes i = None) \/
     (exists e, fst (MarkNodesForDestruction m nodes h) = Ok (Some e) /\
      (0 < k)%nat /\ markAnswer m h nodes (k - 1) = Some e)).
Proof.
  induction nodes as [|n nodes IH]; intros h.
  - exists 0%nat. unfold markedHistory. simpl. rewrite app_nil_r.
    split; [lia|]. split; [reflexivity|]. split; [intros i Hi; lia|].
    left. split; [reflexivity|]. split; [reflexivity|]. intros i Hi. lia.
  - rewrite MarkNodesForDestruction_cons.
    destruct (MarkNodeToDrain (nodeClient m) h n) as [e|] eqn:Hans.
    + exists 1%nat. simpl.
      split; [lia|]. split; [reflexivity|]. split; [intros i Hi; lia|].
      right. exists e. split; [reflexivity|]. split; [lia|].
      now rewrite markAnswer_head.
    + destruct (IH (h ++ [CallMarkNodeToDrain n])) as (k & Hk & Hh & Hpre & Hres).
      exists (S k). split; [simpl; lia|]. split; [now rewrite markedHistory_cons|]. split.
      * intros [|i] Hi; [now rewrite markAnswer_head | rewrite markAnswer_cons; apply Hpre; lia].
      * destruct Hres as [(Hr & Hlen & Hall) | (e & Hr & Hpos & He)].
        -- left. split; [exact Hr|]. split; [simpl; lia|].
           intros [|i] Hi; [now rewrite markAnswer_head | rewrite markAnswer_cons; apply Hall; lia].
        -- right. exists e. split; [exact Hr|]. split; [lia|].
           destruct k as [|k]; [lia|]. simpl. rewrite markAnswer_cons.
           replace (S k - 1)%nat with k in He by lia.
           replace (k - 0)%nat with k by lia. exact He.
Qed.

(** C10: [MarkNodesForDestruction] sends its marking requests in input order
    and nothing else: the requests are those of the first [k] nodes, all but
    the last answered without error.  Either it returns [nil], all nodes were
    marked and all markings succeeded; or it returns the error that the
    gateway gave to the last request sent, the requests before it stay
    written.  It returns [nil] exactly when every marking succeeds. *)
Theorem MarkNodesForDestruction_marks_a_prefix (m : theGrimReaper)
    (nodes : list string) (h : History) :
  (exists k,
     (k <= List.length nodes)%nat /\
     snd (MarkNodesForDestruction m nodes h) = markedHistory h nodes k /\
     (forall i, (i + 1 < k)%nat -> markAnswer m h nodes i = None) /\
     ((fst (MarkNodesForDestruction m nodes h) = Ok None /\ k = List.length nodes) \/
      (exists e, fst (MarkNodesForDestruction m nodes h) = Ok (Some e) /\
                 (0 < k)%nat /\ markAnswer m h nodes (k - 1) = Some e))) /\
  (fst (MarkNodesForDestruction m nodes h) = Ok None <->
   forall i, (i < List.length nodes)%nat -> markAnswer m h nodes i = None).
Proof.
  destruct (MarkNodesForDestruction_run m nodes h) as (k & Hk & Hh & Hpre & Hres).
  split.
  - exists k. repeat split; try assumption.
    destruct Hres as [(Hr & Hlen & _) | Herr]; [left; now split | now right].
  - destruct Hres as [(Hr & Hlen & Hall) | (e & Hr & Hpos & He)].
    + split; [intros _; now rewrite <- Hlen | intros _; exact Hr].
    + split.
      * rewrite Hr. discriminate.
      * intros Hall. rewrite Hall in He by lia. discriminate.
Qed.

(** Marking ["a"; "b"; "c"] when the gateway refuses "b": two requests are
    sent, the mark on "a" stays, "c" is not reached. *)
Lemma MarkNodesForDestruction_stops_at_b :
  MarkNodesForDestruction
    (NewGrimReaper defaultSettings (gateway fourNodes never (markFailsFor "b") succeed))
    ["a"; "b"; "c"] []
  = (Ok (Some serverError), [CallMarkNodeToDrain "a"; CallMarkNodeToDrain "b"]).
Proof. reflexivity. Qed.

Lemma harvestLoop_cons (m : theGrimReaper) (node : string) (rest : list string)
    (h : History) :
  harvestLoop m (node :: rest) h =
  match Harvest m node h with
  | (Ok None, h') => harvestLoop m rest h'
  | (Ok (Some e), h') => (Ok (Some e), h')
  | (Panicked, h') => (Panicked, h')
  | (OutOfFuel, h') => (OutOfFuel, h')
  end.
Proof.
  simpl. unfold bind at 1.
  destruct (Harvest m node h) as [[[e|]| |] h']; reflexivity.
Qed.

(** The loop over [reap] stops at the first failed harvest. *)
Lemma harvestLoop_stops (m : theGrimReaper) (done : list string) :
  forall (node : string) (rest : list string) (h h1 h2 : History) (e : error),
    harvestLoop m done h = (Ok None, h1) ->
    Harvest m node h1 = (Ok (Some e), h2) ->
    harvestLoop m (done ++ node :: rest) h = (Ok (Some e), h2).
Proof.
  induction done as [|d done IH]; intros node rest h h1 h2 e Hdone Hfail.
  - injection Hdone as <-.
    simpl app. rewrite harvestLoop_cons. now rewrite Hfail.
  - simpl app. rewrite harvestLoop_cons in *.
    destruct (Harvest m d h) as [[[err|]| |] h'] eqn:Hd; try discriminate.
    eapply IH; eassumption.
Qed.

(** C4, as amended: when the harvest of a selected node fails, after the
    harvests of the nodes selected before it have succeeded, [runGrimReaper]
    returns that node's error at once: the history of the run ends with the
    failed harvest, and no harvest is attempted for the nodes selected after
    it. *)
Theorem runGrimReaper_stops_at_failed_harvest (config : Settings)
    (nodeClient : NodeInterface) (clock : Clock)
    (done : list string) (node : string) (rest passover : list string)
    (h h0 h1 h2 h3 : History) (e : error) :
  let reaper := NewGrimReaper config nodeClient in
  GetNodesToReap reaper clock h = (Ok (done ++ node :: rest, passover, None), h0) ->
  MarkNodesForDestruction reaper (done ++ node :: rest) h0 = (Ok None, h1) ->
  harvestLoop reaper done h1 = (Ok None, h2) ->
  Harvest reaper node h2 = (Ok (Some e), h3) ->
  runGrimReaper config nodeClient clock h = (Ok (Some e), h3) /\
  harvestLoop reaper (done ++ node :: rest) h1 = harvestLoop reaper (done ++ [node]) h1.
Proof.
  intros reaper Hsel Hmark Hdone Hfail.
  pose proof (harvestLoop_stops reaper done node rest h1 h2 h3 e Hdone Hfail) as Hloop.
  split.
  - unfold runGrimReaper. fold reaper. unfold bind at 1. rewrite Hsel.
    unfold bind at 1. rewrite Hmark. exact Hloop.
  - rewrite Hloop. symmetry.
    exact (harvestLoop_stops reaper done node [] h1 h2 h3 e Hdone Hfail).
Qed.

(** Two nodes selected, every cordon refused: the run marks both, asks to
    cordon the first and returns. *)
Lemma runGrimReaper_stops_at_failed_harvest_witness :
  runGrimReaper (settingsWith 1 5 (1 # 2)) (noCordonGateway fourNodes) noon []
  = (Ok (Some serverError),
     [CallListNodes ""; CallTimeNow; CallHasDealBreakerPods "a";
      CallTimeNow; CallHasDealBreakerPods "a";
      CallMarkNodeToDrain "a"; CallMarkNodeToDrain "a"; CallCordonNode "a"]) /\
  harvestLoop (NewGrimReaper (settingsWith 1 5 (1 # 2)) (noCordonGateway fourNodes))
    ([] ++ "a" :: ["a"])
    [CallListNodes ""; CallTimeNow; CallHasDealBreakerPods "a";
     CallTimeNow; CallHasDealBreakerPods "a";
     CallMarkNodeToDrain "a"; CallMarkNodeToDrain "a"]
  = harvestLoop (NewGrimReaper (settingsWith 1 5 (1 # 2)) (noCordonGateway fourNodes))
      ([] ++ ["a"])
      [CallListNodes ""; CallTimeNow; CallHasDealBreakerPods "a";
       CallTimeNow; CallHasDealBreakerPods "a";
       CallMarkNodeToDrain "a"; CallMarkNodeToDrain "a"].
Proof.
  apply (runGrimReaper_stops_at_failed_harvest
           (settingsWith 1 5 (1 # 2)) (noCordonGateway fourNodes) noon
           [] "a" ["a"] [] []
           [CallListNodes ""; CallTimeNow; CallHasDealBreakerPods "a";
            CallTimeNow; CallHasDealBreakerPods "a"]
           [CallListNodes ""; CallTimeNow; CallHasDealBreakerPods "a";
            CallTimeNow; CallHasDealBreakerPods "a";
            CallMarkNodeToDrain "a"; CallMarkNodeToDrain "a"]
           [CallListNodes ""; CallTimeNow; CallHasDealBreakerPods "a";
            CallTimeNow; CallHasDealBreakerPods "a";
            CallMarkNodeToDrain "a"; CallMarkNodeToDrain "a"]
           [CallListNodes ""; CallTimeNow; CallHasDealBreakerPods "a";
            CallTimeNow; CallHasDealBreakerPods "a";
            CallMarkNodeToDrain "a"; CallMarkNodeToDrain "a"; CallCordonNode "a"]
           serverError); reflexivity.
Defined.

(** C4 as stated fails.  With "a" and "b" selected and the cordon of "a"
    refused, the only request of the harvest loop is the cordon of "a": no
    harvest of "b" is attempted.  And in a whole run that selects two entries
    and marks both, the first refused cordon is the last request. *)
Lemma harvest_failure_ends_the_run :
  harvestLoop (NewGrimReaper defaultSettings (noCordonGateway fourNodes)) ["a"; "b"] []
  = (Ok (Some serverError), [CallCordonNode "a"]) /\
  existsb (fun c => match c with
                    | CallCordonNode "b" | CallDrainNode "b" => true
                    | _ => false
                    end)
    (snd (harvestLoop (NewGrimReaper defaultSettings (noCordonGateway fourNodes))
            ["a"; "b"] []))
  = false /\
  runGrimReaper (settingsWith 1 5 (1 # 2)) (noCordonGateway fourNodes) noon []
  = (Ok (Some serverError),
     [CallListNodes ""; CallTimeNow; CallHasDealBreakerPods "a";
      CallTimeNow; CallHasDealBreakerPods "a";
      CallMarkNodeToDrain "a"; CallMarkNodeToDrain "a"; CallCordonNode "a"]).
Proof. repeat split; reflexivity. Qed.

End HarvestProperties.

(** ** The eviction guard and the eviction of one pod *)
Section EvictorProperties.
Import config kubernetes scenarios runs.

(** C5, as amended: for a pod whose controller is a DaemonSet, [shouldEvict]
    looks the DaemonSet up once and returns false both when the DaemonSet
    exists and when the lookup fails with an error other than not-found; in
    the second case the error is not handed to the caller, the result is the
    same [false]. *)
Theorem shouldEvict_refuses_daemonset_pods (m : kubernetesPodEvictor) (pod : Pod)
    (daemonSetName : string) (h : History) :
  getPodDaemonSet pod = (true, daemonSetName) ->
  (DaemonSetsGet (client m) h (Namespace pod) daemonSetName = None \/
   exists e, DaemonSetsGet (client m) h (Namespace pod) daemonSetName = Some e /\
             IsNotFound e = false) ->
  shouldEvict m pod h
  = (Ok (Return false), h ++ [CallDaemonSetsGet (Namespace pod) daemonSetName]).
Proof.
  intros Hds Hlookup. unfold shouldEvict. rewrite Hds.
  unfold daemonsetExists, bind, invoke.
  destruct Hlookup as [-> | (e & -> & ->)]; reflexivity.
Qed.

Lemma shouldEvict_refuses_daemonset_pods_witness :
  shouldEvict (evictorWith (fun _ => None) (fun _ => None)) daemonPod []
  = (Ok (Return false), [] ++ [CallDaemonSetsGet "kube-system" "proxy"]).
Proof.
  apply (shouldEvict_refuses_daemonset_pods
           (evictorWith (fun _ => None) (fun _ => None)) daemonPod "proxy" []).
  - reflexivity.
  - left. reflexivity.
Defined.

(** C5 as stated fails: when the lookup of the DaemonSet fails with a server
    error, [shouldEvict] hands its caller exactly what it hands it when the
    DaemonSet exists; no error reaches the caller. *)
Lemma shouldEvict_lookup_error_not_surfaced :
  DaemonSetsGet (client (evictorWith (fun _ => Some serverError) (fun _ => None)))
    [] "kube-system" "proxy" = Some serverError /\
  IsNotFound serverError = false /\
  shouldEvict (evictorWith (fun _ => Some serverError) (fun _ => None)) daemonPod []
  = (Ok (Return false), [CallDaemonSetsGet "kube-system" "proxy"]) /\
  shouldEvict (evictorWith (fun _ => Some serverError) (fun _ => None)) daemonPod []
  = shouldEvict (evictorWith (fun _ => None) (fun _ => None)) daemonPod [].
Proof. repeat split; reflexivity. Qed.

(** When the lookup reports not-found the DaemonSet check lets the pod
    pass, and the body ends without a [return]. *)
Lemma shouldEvict_owner_not_found :
  shouldEvict (evictorWith (fun _ => Some notFoundError) (fun _ => None)) daemonPod []
  = (Ok NoReturn, [CallDaemonSetsGet "kube-system" "proxy"]) /\
  shouldEvict (evictorWith (fun _ => None) (fun _ => None)) plainPod []
  = (Ok NoReturn, []).
Proof. split; reflexivity. Qed.

Section OnePod.
Variable m : kubernetesPodEvictor.
Variable abort : History -> bool.
Variable pod : Pod.

Lemma retried_succ (h : History) (k : nat) :
  retried m pod h (S k)
  = retried m pod h k ++ [evictRequest m pod; CallTimeSleep (5 * Second)].
Proof.
  unfold retried. rewrite <- app_assoc. f_equal.
  change (repeat ?x (S k)) with (x :: repeat x k).
  rewrite repeat_cons, concat_app. reflexivity.
Qed.

Lemma retried_zero (h : History) : retried m pod h 0 = h.
Proof. unfold retried. simpl. apply app_nil_r. Qed.

(** One iteration of the loop whose request is answered too-many-requests. *)
Lemma evictLoop_throttled (fuel : nat) (h : History) (e : error) :
  abort h = false ->
  PodsEvict (client m) h (Namespace pod) (Name pod) (terminationGracePeriodOf m pod) = Some e ->
  IsTooManyRequests e = true ->
  evictLoop m abort (S fuel) pod (terminationGracePeriodOf m pod) h
  = evictLoop m abort fuel pod (terminationGracePeriodOf m pod)
      (h ++ [evictRequest m pod; CallTimeSleep (5 * Second)]).
Proof.
  intros Ha He H429. simpl. unfold bind, selectAbort, invoke, timeSleep. rewrite Ha, He.
  destruct e as [[| |c] msg| |]; try discriminate. simpl.
  unfold evictRequest. now rewrite <- app_assoc.
Qed.

(** [k] throttled rounds take [k] units of fuel and lead to [retried h k]. *)
Lemma evictLoop_after_throttling (h : History) (k : nat) :
  Throttled m abort pod h k ->
  forall fuel,
    evict m abort (k + fuel) pod h
    = evictLoop m abort fuel pod (terminationGracePeriodOf m pod) (retried m pod h k).
Proof.
  unfold evict. induction k as [|k IH]; intros Hthr fuel.
  - now rewrite retried_zero.
  - replace (S k + fuel)%nat with (k + S fuel)%nat by lia.
    rewrite IH by (intros j Hj; apply Hthr; lia).
    destruct (Hthr k (Nat.lt_succ_diag_r k)) as (Ha & e & He & H429).
    rewrite (evictLoop_throttled fuel _ e Ha He H429).
    now rewrite retried_succ.
Qed.

(** C6: [evict] classifies the response to each eviction request.  After any
    number [k] of requests answered too-many-requests, each followed by a
    sleep of exactly 5 seconds, the next iteration returns the abort error if
    [abort] is closed; otherwise it sends the request again and returns
    [nil] on not-found, the wrapped error on any other error that is not
    too-many-requests, and the unable-to-tell error on a [nil] response.  When
    every request is answered too-many-requests and [abort] stays open the
    loop does not end, whatever the fuel.  The unable-to-tell error is not
    the wrapping of any API error. *)
Theorem evict_classifies_responses (h : History) :
  (forall k fuel, (k < fuel)%nat -> Throttled m abort pod h k ->
     (abort (retried m pod h k) = true ->
      evict m abort fuel pod h = (Ok (Some abortedError), retried m pod h k)) /\
     (abort (retried m pod h k) = false ->
      (responseAt m pod h k = None ->
       evict m abort fuel pod h
       = (Ok (Some (unableToTellError pod)), retried m pod h k ++ [evictRequest m pod])) /\
      (forall e, responseAt m pod h k = Some e -> IsNotFound e = true ->
       evict m abort fuel pod h
       = (Ok None, retried m pod h k ++ [evictRequest m pod])) /\
      (forall e, responseAt m pod h k = Some e ->
       IsNotFound e = false -> IsTooManyRequests e = false ->
       evict m abort fuel pod h
       = (Ok (Some (evictingError e pod)), retried m pod h k ++ [evictRequest m pod])))) /\
  ((forall k, Throttled m abort pod h k) ->
   forall fuel, evict m abort fuel pod h = (OutOfFuel, retried m pod h fuel)) /\
  (forall e, unableToTellError pod <> evictingError e pod).
Proof.
  split; [|split].
  - intros k fuel Hfuel Hthr.
    replace fuel with (k + S (fuel - k - 1))%nat by lia.
    rewrite (evictLoop_after_throttling h k Hthr).
    generalize (fuel - k - 1)%nat as f. intros f.
    unfold responseAt.
    split; [|intros Ha; split; [|split]].
    + intros Ha. simpl. unfold bind, selectAbort. now rewrite Ha.
    + intros Hr. simpl. unfold bind, selectAbort, invoke. now rewrite Ha, Hr.
    + intros e Hr Hnf. simpl. unfold bind, selectAbort, invoke.
      now rewrite Ha, Hr, Hnf.
    + intros e Hr Hnf H429. simpl. unfold bind, selectAbort, invoke.
      now rewrite Ha, Hr, Hnf, H429.
  - intros Hthr fuel.
    replace fuel with (fuel + 0)%nat at 1 by lia.
    now rewrite (evictLoop_after_throttling h fuel (Hthr fuel)).
  - intros e. discriminate.
Qed.

End OnePod.

(** Two too-many-requests responses and then not-found: the pod is evicted
    after two sleeps of 5 seconds. *)
Lemma evict_classifies_responses_witness :
  evict (evictorWith (fun _ => None) throttledTwice) (fun _ => false) 3 daemonPod []
  = (Ok None,
     [CallPodsEvict "kube-system" "proxy-1" 30; CallTimeSleep 5000000000;
      CallPodsEvict "kube-system" "proxy-1" 30; CallTimeSleep 5000000000;
      CallPodsEvict "kube-system" "proxy-1" 30]).
Proof.
  destruct (evict_classifies_responses
              (evictorWith (fun _ => None) throttledTwice) (fun _ => false) daemonPod [])
    as [Hclass _].
  assert (Hthr : Throttled (evictorWith (fun _ => None) throttledTwice) (fun _ => false)
                   daemonPod [] 2).
  { intros j Hj. split; [reflexivity|]. exists throttleError.
    destruct j as [|[|j]]; [split; reflexivity | split; reflexivity | lia]. }
  destruct (Hclass 2%nat 3%nat (Nat.lt_succ_diag_r 2) Hthr) as [_ Hopen].
  destruct (Hopen eq_refl) as (_ & Hnf & _).
  exact (Hnf notFoundError eq_refl eq_refl).
Defined.

End EvictorProperties.

(** ** The drain coordinator and its goroutines *)
Section CoordinatorProperties.
Import config kubernetes scenarios runs.

Lemma setTask_length (ts : list Task) :
  forall i t, List.length (setTask ts i t) = List.length ts.
Proof.
  induction ts as [|t0 ts IH]; intros [|i] t; simpl; try reflexivity.
  now rewrite IH.
Qed.

(** Replacing a task that has not exited changes the number of exited tasks
    by one exactly when the new task has. *)
Lemma setTask_exited (ts : list Task) :
  forall i t0 t,
    nth_error ts i = Some t0 -> isExited t0 = false ->
    List.length (filter isExited (setTask ts i t))
    = (List.length (filter isExited ts) + if isExited t then 1 else 0)%nat.
Proof.
  induction ts as [|x ts IH]; intros [|i] t0 t Hnth Hlive; simpl in Hnth;
    try discriminate.
  - injection Hnth as ->. simpl. rewrite Hlive. destruct (isExited t); simpl; lia.
  - specialize (IH i t0 t Hnth Hlive). simpl.
    destruct (isExited x); simpl; rewrite IH; lia.
Qed.

Lemma exited_plus_live (s : State) :
  (exitedTasks s + liveTasks s = List.length (tasks s))%nat.
Proof.
  unfold exitedTasks, liveTasks.
  induction (tasks s) as [|t ts IH]; simpl; [reflexivity|].
  destruct (isExited t); simpl; lia.
Qed.

Lemma Accounted_start (pods : list Pod) :
  Accounted (List.length pods) (evictPodsStart pods).
Proof.
  unfold Accounted, evictPodsStart, exitedTasks. simpl.
  rewrite length_map. split; [reflexivity|]. split; [unfold resultsCapacity; lia|].
  assert (H : filter isExited (map Evicting pods) = []).
  { induction pods as [|p pods IH]; simpl; [reflexivity | exact IH]. }
  rewrite H. simpl. lia.
Qed.

Lemma Accounted_step (k : nat) (s s' : State) (l : Label) :
  Accounted k s -> step s l = Some s' -> Accounted k s'.
Proof.
  unfold Accounted, exitedTasks.
  intros (Hlen & Hcap & Hinv) Hstep.
  destruct l as [i r | i | | | ]; simpl in Hstep; unfold resultsCapacity in *.
  - destruct (nth_error (tasks s) i) as [[p|r0|]|] eqn:Hnth; try discriminate.
    injection Hstep as <-. simpl.
    rewrite setTask_length, (setTask_exited _ i (Evicting p)) by (assumption || reflexivity).
    simpl. rewrite Nat.add_0_r. auto.
  - destruct (nth_error (tasks s) i) as [[p|r0|]|] eqn:Hnth; try discriminate.
    destruct (Nat.ltb_spec (List.length (results s)) 1); [|discriminate].
    injection Hstep as <-. simpl.
    rewrite setTask_length, (setTask_exited _ i (Sending r0)) by (assumption || reflexivity).
    rewrite length_app. simpl.
    split; [assumption|]. split; [lia|].
    destruct (coordinator s); [lia | exact I].
  - destruct (coordinator s) as [[|remaining]|e]; try discriminate.
    destruct (results s) as [|[err|] rest] eqn:Hres; try discriminate;
      injection Hstep as <-; simpl in *.
    + split; [assumption|]. split; [lia | exact I].
    + split; [assumption|]. split; lia.
  - destruct (coordinator s) as [[|remaining]|e]; try discriminate.
    injection Hstep as <-. simpl. auto.
  - destruct (coordinator s) as [[|remaining]|e]; try discriminate.
    injection Hstep as <-. simpl. auto.
Qed.

Lemma Accounted_run (k : nat) (schedule : list Label) :
  forall s s', Accounted k s -> run s schedule = Some s' -> Accounted k s'.
Proof.
  induction schedule as [|l schedule IH]; intros s s' Hs Hrun; simpl in Hrun.
  - now injection Hrun as <-.
  - destruct (step s l) as [s1|] eqn:Hstep; [|discriminate].
    exact (IH s1 s' (Accounted_step k s s1 l Hs Hstep) Hrun).
Qed.

(** Once [evictPods] has returned nobody receives from [results]: the state
    of the coordinator stays, [abort] stays closed, and a task exits only by
    putting its result into the buffer. *)
Lemma returned_step (s s' : State) (l : Label) (err : option error) :
  coordinator s = ReturnedWith err -> step s l = Some s' ->
  coordinator s' = ReturnedWith err /\
  abortClosed s' = abortClosed s /\
  (exitedTasks s' + List.length (results s)
   = exitedTasks s + List.length (results s'))%nat.
Proof.
  unfold exitedTasks. intros Hc Hstep.
  destruct l as [i r | i | | | ]; simpl in Hstep; try (rewrite Hc in Hstep; discriminate).
  - destruct (nth_error (tasks s) i) as [[p|r0|]|] eqn:Hnth; try discriminate.
    injection Hstep as <-. simpl.
    rewrite (setTask_exited _ i (Evicting p)) by (assumption || reflexivity).
    simpl. auto with arith.
  - destruct (nth_error (tasks s) i) as [[p|r0|]|] eqn:Hnth; try discriminate.
    destruct (List.length (results s) <? resultsCapacity)%nat; [|discriminate].
    injection Hstep as <-. simpl.
    rewrite (setTask_exited _ i (Sending r0)) by (assumption || reflexivity).
    rewrite length_app. simpl. split; [assumption|]. split; [reflexivity | lia].
Qed.

Lemma returned_run (schedule : list Label) :
  forall (s s' : State) (err : option error),
    coordinator s = ReturnedWith err -> run s schedule = Some s' ->
    coordinator s' = ReturnedWith err /\
    abortClosed s' = abortClosed s /\
    (exitedTasks s' + List.length (results s)
     = exitedTasks s + List.length (results s'))%nat.
Proof.
  induction schedule as [|l schedule IH]; intros s s' err Hc Hrun; simpl in Hrun.
  - injection Hrun as <-. auto.
  - destruct (step s l) as [s1|] eqn:Hstep; [|discriminate].
    destruct (returned_step s s1 l err Hc Hstep) as (Hc1 & Ha1 & He1).
    destruct (IH s1 s' err Hc1 Hrun) as (Hc' & Ha' & He').
    split; [assumption|]. split; [congruence | lia].
Qed.

(** C7, on the code: when the deadline passes with [remaining] results still
    to collect, [evictPods] returns the timeout error and [abort] is closed;
    but however the goroutines are scheduled afterwards, all but at most one of
    the [remaining] goroutines are still there, unable to send their result:
    the buffer of [results] has room for one result and nobody receives. *)
Theorem evictPods_timeout_strands_tasks (pods : list Pod)
    (before after : list Label) (s1 s2 : State) (remaining : nat) :
  run (evictPodsStart pods) before = Some s1 ->
  coordinator s1 = Collecting remaining ->
  run s1 (CoordinatorTimesOut :: after) = Some s2 ->
  coordinator s2 = ReturnedWith (Some timedOutError) /\
  abortClosed s2 = true /\
  (remaining <= liveTasks s2 + 1)%nat.
Proof.
  intros Hbefore Hcollect Hafter.
  pose proof (Accounted_run _ before _ _ (Accounted_start pods) Hbefore)
    as (Hlen & Hcap & Hinv).
  rewrite Hcollect in Hinv.
  simpl in Hafter. rewrite Hcollect in Hafter.
  destruct remaining as [|remaining]; [discriminate|].
  set (s := returnWith s1 (Some timedOutError) (results s1)) in *.
  destruct (returned_run after s s2 (Some timedOutError) eq_refl Hafter)
    as (Hc & Ha & He).
  split; [exact Hc|]. split; [exact Ha|].
  pose proof (Accounted_run (List.length pods) after s s2) as Hreach.
  destruct Hreach as (Hlen2 & Hcap2 & _); [|exact Hafter|].
  { unfold Accounted, s. simpl. auto. }
  pose proof (exited_plus_live s2) as Hsum.
  assert (Hex : exitedTasks s = exitedTasks s1) by reflexivity.
  assert (Hres : results s = results s1) by reflexivity.
  rewrite Hex, Hres in He. unfold resultsCapacity in *. lia.
Qed.

(** Two pods, neither evicted when the deadline passes.  Both goroutines see
    the closed [abort] and come back from [evict]; the first puts its result
    into the buffer and exits, the second remains. *)
Lemma evictPods_timeout_strands_tasks_witness :
  coordinator
    {| coordinator := ReturnedWith (Some timedOutError);
       tasks := [Exited; Sending (Some abortedError)];
       results := [Some abortedError];
       abortClosed := true |}
  = ReturnedWith (Some timedOutError) /\
  abortClosed
    {| coordinator := ReturnedWith (Some timedOutError);
       tasks := [Exited; Sending (Some abortedError)];
       results := [Some abortedError];
       abortClosed := true |}
  = true /\
  (2 <= liveTasks
          {| coordinator := ReturnedWith (Some timedOutError);
             tasks := [Exited; Sending (Some abortedError)];
             results := [Some abortedError];
             abortClosed := true |} + 1)%nat.
Proof.
  apply (evictPods_timeout_strands_tasks [plainPod; daemonPod] []
           [EvictReturns 0 (Some abortedError); EvictReturns 1 (Some abortedError);
            TaskSends 0]
           (evictPodsStart [plainPod; daemonPod])); reflexivity.
Defined.

(** In the state that run ends in, nothing can move any more: the second
    goroutine stays blocked on its send for ever. *)
Lemma evictPods_two_pods_blocked (l : Label) :
  step {| coordinator := ReturnedWith (Some timedOutError);
          tasks := [Exited; Sending (Some abortedError)];
          results := [Some abortedError];
          abortClosed := true |} l
  = None.
Proof.
  destruct l as [[|[|i]] r | [|[|i]] | | | ]; try reflexivity.
  - simpl. now destruct i.
  - simpl. now destruct i.
Qed.

End CoordinatorProperties.


(** * Further properties of the code *)

(** ** More on selection *)
Section SelectionExtras.
Import config reaper main scenarios runs histories moreScenarios.

(** Four nodes, nothing to reap, a deal-breaker pod at the second query:
    the name in [passover] is the name in [reap]. *)
Lemma GetNodesToReap_returns_one_name_witness :
  GetNodesToReap
    (NewGrimReaper (settingsWith 1 5 0)
       (gateway fourNodes (dealBreakAtQuery 1) succeed succeed)) noon []
  = (Ok (["a"; "a"; "a"], ["a"], None),
     [CallListNodes ""; CallTimeNow; CallHasDealBreakerPods "a";
      CallTimeNow; CallHasDealBreakerPods "a";
      CallTimeNow; CallHasDealBreakerPods "a";
      CallTimeNow; CallHasDealBreakerPods "a"]) /\
  hd "" ["a"; "a"; "a"] = hd "" ["a"].
Proof.
  split; [reflexivity|].
  apply (GetNodesToReap_returns_one_name
           (NewGrimReaper (settingsWith 1 5 0)
              (gateway fourNodes (dealBreakAtQuery 1) succeed succeed)) noon []
           [CallListNodes ""; CallTimeNow; CallHasDealBreakerPods "a";
            CallTimeNow; CallHasDealBreakerPods "a";
            CallTimeNow; CallHasDealBreakerPods "a";
            CallTimeNow; CallHasDealBreakerPods "a"]
           ["a"; "a"; "a"] ["a"] eq_refl).
  - simpl. left. reflexivity.
  - simpl. do 3 right. left. reflexivity.
Defined.

Lemma GetNodesToReap_at_most_target_witness :
  nodesToReapOf (settingsWith 1 5 (1 # 2)) (len fourNodes) = 2 /\
  len ["a"; "a"] <= nodesToReapOf (settingsWith 1 5 (1 # 2)) (len fourNodes).
Proof.
  split; [reflexivity|].
  apply (GetNodesToReap_at_most_target
           (NewGrimReaper (settingsWith 1 5 (1 # 2)) (quietGateway fourNodes)) noon []
           [CallListNodes ""; CallTimeNow; CallHasDealBreakerPods "a";
            CallTimeNow; CallHasDealBreakerPods "a"]
           fourNodes ["a"; "a"] []); reflexivity.
Defined.

(** An error inside the loop: both sequences are empty, the error is the one
    of the deal-breaker query and that query is the last call. *)
Lemma reapLoop_error (m : theGrimReaper) (clock : Clock)
    (allNodes : list Node) (nodesToReap : Z) :
  forall iterations consideredNodes reap passover h reap' passover' e h',
    reapLoop m clock iterations allNodes nodesToReap consideredNodes reap passover h
    = (Ok (reap', passover', Some e), h') ->
    reap' = [] /\ passover' = [] /\
    exists h1 name dealBreak,
      HasDealBreakerPods (nodeClient m) h1 name = (dealBreak, Some e) /\
      h' = h1 ++ [CallHasDealBreakerPods name].
Proof.
  induction iterations as [|it iterations IH];
    intros consideredNodes reap passover h reap' passover' e h' Hrun.
  - discriminate.
  - simpl in Hrun. unfold bind at 1 in Hrun. unfold timeNow, invoke at 1 in Hrun.
    unfold bind at 1 in Hrun.
    destruct (index_cases (E := Call) allNodes
                (fst (scanOldest allNodes 0 consideredNodes (clock h) (-1)))
                (h ++ [CallTimeNow]))
      as [Hp | (node & Hb & Hnth & Hix)]; rewrite ?Hp, ?Hix in Hrun; [discriminate|].
    unfold bind at 1, invoke at 1 in Hrun.
    destruct (HasDealBreakerPods (nodeClient m) (h ++ [CallTimeNow]) (Name node))
      as [dealBreak [err|]] eqn:Hq.
    + injection Hrun as <- <- <- <-.
      split; [reflexivity|]. split; [reflexivity|].
      exists (h ++ [CallTimeNow]), (Name node), dealBreak. now split.
    + destruct (len _ =? nodesToReap); [discriminate|].
      exact (IH _ _ _ _ _ _ _ _ Hrun).
Qed.

(** X3: selection is all or nothing.  When [GetNodesToReap] returns an
    error, [reap] and [passover] are both empty, whatever had been selected
    before; the error is the unchanged error of the listing or of a
    deal-breaker query, and the failed call is the last call of the run. *)
Theorem GetNodesToReap_error_returns_nothing (m : theGrimReaper) (clock : Clock)
    (h h' : History) (reap passover : list string) (e : error) :
  GetNodesToReap m clock h = (Ok (reap, passover, Some e), h') ->
  reap = [] /\ passover = [] /\
  ((snd (ListNodes (nodeClient m) h (NodeLabelSelector (config m))) = Some e /\
    h' = h ++ [CallListNodes (NodeLabelSelector (config m))]) \/
   (exists h1 name dealBreak,
      HasDealBreakerPods (nodeClient m) h1 name = (dealBreak, Some e) /\
      h' = h1 ++ [CallHasDealBreakerPods name])).
Proof.
  unfold GetNodesToReap, bind at 1, invoke at 1.
  destruct (ListNodes _ _ _) as [allNodes [err|]] eqn:Hlist.
  - intros Hrun. injection Hrun as <- <- <- <-.
    split; [reflexivity|]. split; [reflexivity|]. left. now split.
  - intros Hrun. destruct (reapLoop_error _ _ _ _ _ _ _ _ _ _ _ _ _ Hrun) as (-> & -> & Hq).
    split; [reflexivity|]. split; [reflexivity|]. now right.
Qed.

(** The second deal-breaker query fails: the name selected at the first
    step is not returned. *)
Lemma GetNodesToReap_error_returns_nothing_witness :
  @nil string = [] /\ @nil string = [] /\
  ((snd (ListNodes (queryFailsAt fourNodes 1) [] "") = Some serverError /\
    [CallListNodes ""; CallTimeNow; CallHasDealBreakerPods "a";
     CallTimeNow; CallHasDealBreakerPods "a"] = [] ++ [CallListNodes ""]) \/
   (exists h1 name dealBreak,
      HasDealBreakerPods (queryFailsAt fourNodes 1) h1 name = (dealBreak, Some serverError) /\
      [CallListNodes ""; CallTimeNow; CallHasDealBreakerPods "a";
       CallTimeNow; CallHasDealBreakerPods "a"] = h1 ++ [CallHasDealBreakerPods name])).
Proof.
  apply (GetNodesToReap_error_returns_nothing
           (NewGrimReaper (settingsWith 1 5 (1 # 2)) (queryFailsAt fourNodes 1)) noon
           [] _ [] [] serverError).
  reflexivity.
Defined.

End SelectionExtras.

Section SelectionCounts.
Import config reaper main scenarios runs histories moreScenarios.




(** A scan over nodes none of which is older than its bound leaves
    [lowestIndex] as it was. *)
Lemma scanOldest_none (items : list Node) :
  forall i consideredNodes oldest lowestIndex,
    (forall n, In n items -> Before (CreationTimestamp n) oldest = false) ->
    scanOldest items i consideredNodes oldest lowestIndex = (lowestIndex, oldest).
Proof.
  induction items as [|n rest IH]; intros i consideredNodes oldest lowestIndex Hnone.
  - reflexivity.
  - simpl. rewrite (Hnone n (or_introl eq_refl)).
    apply IH. intros x Hx. apply Hnone. now right.
Qed.

(** X5: when the gateway lists at least one node and no listed node was
    created strictly before the first reading of the clock (creation
    timestamps equal to or later than now), [GetNodesToReap] does not return:
    the first scan ends with [lowestIndex] = -1 and
    [allNodes.Items[lowestIndex]] panics, right after the clock is read and
    before any deal-breaker query. *)
Theorem GetNodesToReap_panics_without_older_node (m : theGrimReaper) (clock : Clock)
    (h : History) (allNodes : list Node) :
  ListNodes (nodeClient m) h (NodeLabelSelector (config m)) = (allNodes, None) ->
  allNodes <> [] ->
  (forall n, In n allNodes ->
     Before (CreationTimestamp n)
       (clock (h ++ [CallListNodes (NodeLabelSelector (config m))])) = false) ->
  GetNodesToReap m clock h
  = (Panicked, h ++ [CallListNodes (NodeLabelSelector (config m)); CallTimeNow]).
Proof.
  intros Hlist Hne Hnone. unfold GetNodesToReap, bind at 1, invoke at 1. rewrite Hlist.
  destruct allNodes as [|n rest]; [congruence|].
  cbn [reapLoop]. unfold bind at 1, timeNow, invoke at 1.
  rewrite (scanOldest_none _ 0 [] _ (-1) Hnone). simpl fst.
  unfold bind at 1. unfold index. simpl.
  now rewrite <- app_assoc.
Qed.

(** The four nodes, listed at a moment the clock reads 10: "a" was created
    at 10, the others later. *)
Lemma GetNodesToReap_panics_without_older_node_witness :
  GetNodesToReap (NewGrimReaper defaultSettings (quietGateway fourNodes)) (fun _ => 10) []
  = (Panicked, [] ++ [CallListNodes ""; CallTimeNow]).
Proof.
  apply (GetNodesToReap_panics_without_older_node
           (NewGrimReaper defaultSettings (quietGateway fourNodes)) (fun _ => 10) []
           fourNodes eq_refl).
  - discriminate.
  - intros n Hn. simpl in Hn.
    destruct Hn as [<- | [<- | [<- | [<- | []]]]]; reflexivity.
Defined.

End SelectionCounts.

Section TargetExtras.
Import config reaper main scenarios runs histories moreScenarios.




End TargetExtras.

Section ScanExtras.
Import config reaper main scenarios runs histories moreScenarios.

Lemma isConsidered_fold (name : string) (consideredNodes : list string) :
  forall acc,
    fold_left (fun considered c => if String.eqb name c then true else considered)
      consideredNodes acc = true <->
    acc = true \/ In name consideredNodes.
Proof.
  induction consideredNodes as [|c rest IH]; intros acc; simpl.
  - tauto.
  - rewrite IH. destruct (String.eqb_spec name c) as [-> | Hne].
    + tauto.
    + split; [intros [H | H]; tauto|].
      intros [H | [H | H]]; [tauto | congruence | tauto].
Qed.

Lemma isConsidered_In (name : string) (consideredNodes : list string) :
  isConsidered name consideredNodes = true <-> In name consideredNodes.
Proof.
  unfold isConsidered. rewrite isConsidered_fold.
  split; [intros [H | H]; [discriminate | exact H] | now right].
Qed.

(** The scan, from any bound [oldest] and any [lowestIndex]: the final bound
    [t] is at most [oldest] and at most the creation time of every node that
    is not considered; and either nothing was found, or the index found is
    that of a node not considered, created at [t], strictly before [oldest]
    and strictly before every node not considered that is listed ahead of
    it. *)
Lemma scanOldest_spec (items : list Node) (consideredNodes : list string) :
  forall i oldest lowestIndex r t,
    scanOldest items i consideredNodes oldest lowestIndex = (r, t) ->
    t <= oldest /\
    (forall n, In n items -> ~ In (Name n) consideredNodes -> t <= CreationTimestamp n) /\
    ((r = lowestIndex /\ t = oldest) \/
     (i <= r /\
      exists node,
        nth_error items (Z.to_nat (r - i)) = Some node /\
        ~ In (Name node) consideredNodes /\
        CreationTimestamp node = t /\ t < oldest /\
        forall j n, (j < Z.to_nat (r - i))%nat -> nth_error items j = Some n ->
                    ~ In (Name n) consideredNodes -> t < CreationTimestamp n)).
Proof.
  induction items as [|n rest IH]; intros i oldest lowestIndex r t Hscan.
  - injection Hscan as <- <-. split; [lia|]. split; [intros n []|]. now left.
  - simpl in Hscan. unfold Before in Hscan.
    destruct (Z.ltb_spec (CreationTimestamp n) oldest) as [Hlt | Hge];
      [destruct (isConsidered (Name n) consideredNodes) eqn:Hc; simpl in Hscan|].
    + (* older than the bound, but considered *)
      apply isConsidered_In in Hc.
      destruct (IH _ _ _ _ _ Hscan) as (Hto & Hall & Hfound).
      split; [exact Hto|]. split.
      * intros x [<- | Hx] Hnc; [contradiction | now apply Hall].
      * destruct Hfound as [Hnone | (Hi & node & Hnth & Hnc & Hts & Hlt' & Hfirst)];
          [now left | right].
        split; [lia|]. exists node.
        replace (Z.to_nat (r - i)) with (S (Z.to_nat (r - (i + 1)))) by lia.
        split; [exact Hnth|]. split; [exact Hnc|]. split; [exact Hts|].
        split; [exact Hlt'|].
        intros [|j] x Hj Hx Hxc.
        -- injection Hx as <-. contradiction.
        -- apply (Hfirst j x); [lia | exact Hx | exact Hxc].
    + (* older than the bound and not considered: the new candidate *)
      assert (Hnc : ~ In (Name n) consideredNodes).
      { rewrite <- isConsidered_In. congruence. }
      destruct (IH _ _ _ _ _ Hscan) as (Hto & Hall & Hfound).
      split; [lia|]. split.
      * intros x [<- | Hx] Hxc; [lia | now apply Hall].
      * right.
        destruct Hfound as [[-> ->] | (Hi & node & Hnth & Hnc' & Hts & Hlt' & Hfirst)].
        -- split; [lia|]. exists n. replace (i - i) with 0 by lia.
           split; [reflexivity|]. split; [exact Hnc|]. split; [reflexivity|].
           split; [exact Hlt|]. intros j x Hj. simpl in Hj. lia.
        -- split; [lia|]. exists node.
           replace (Z.to_nat (r - i)) with (S (Z.to_nat (r - (i + 1)))) by lia.
           split; [exact Hnth|]. split; [exact Hnc'|]. split; [exact Hts|].
           split; [lia|].
           intros [|j] x Hj Hx Hxc.
           ++ injection Hx as <-. lia.
           ++ apply (Hfirst j x); [lia | exact Hx | exact Hxc].
    + (* not older than the bound *)
      destruct (IH _ _ _ _ _ Hscan) as (Hto & Hall & Hfound).
      split; [exact Hto|]. split.
      * intros x [<- | Hx] Hxc; [lia | now apply Hall].
      * destruct Hfound as [Hnone | (Hi & node & Hnth & Hnc & Hts & Hlt' & Hfirst)];
          [now left | right].
        split; [lia|]. exists node.
        replace (Z.to_nat (r - i)) with (S (Z.to_nat (r - (i + 1)))) by lia.
        split; [exact Hnth|]. split; [exact Hnc|]. split; [exact Hts|].
        split; [exact Hlt'|].
        intros [|j] x Hj Hx Hxc.
        -- injection Hx as <-. lia.
        -- apply (Hfirst j x); [lia | exact Hx | exact Hxc].
Qed.

(** X8: what the scan for the oldest next node finds, for any list of
    considered names.  If it ends with [lowestIndex] = -1, no node that is not
    considered was created before [now].  Otherwise [lowestIndex] is the index
    of a node that is not considered and was created before [now], no node
    that is not considered is older, and those listed ahead of it are strictly
    younger: the oldest one, the first listed among equals. *)
Theorem scanOldest_finds_first_oldest (items : list Node)
    (consideredNodes : list string) (now : Time) :
  (fst (scanOldest items 0 consideredNodes now (-1)) = -1 /\
   forall n, In n items -> ~ In (Name n) consideredNodes ->
             Before (CreationTimestamp n) now = false) \/
  (exists node,
     0 <= fst (scanOldest items 0 consideredNodes now (-1)) /\
     nth_error items (Z.to_nat (fst (scanOldest items 0 consideredNodes now (-1))))
     = Some node /\
     ~ In (Name node) consideredNodes /\
     Before (CreationTimestamp node) now = true /\
     (forall n, In n items -> ~ In (Name n) consideredNodes ->
                CreationTimestamp node <= CreationTimestamp n) /\
     (forall j n,
        (j < Z.to_nat (fst (scanOldest items 0 consideredNodes now (-1))))%nat ->
        nth_error items j = Some n -> ~ In (Name n) consideredNodes ->
        CreationTimestamp node < CreationTimestamp n)).
Proof.
  destruct (scanOldest items 0 consideredNodes now (-1)) as [r t] eqn:Hscan.
  destruct (scanOldest_spec items consideredNodes 0 now (-1) r t Hscan)
    as (Hto & Hall & [[-> ->] | (Hi & node & Hnth & Hnc & Hts & Hlt & Hfirst)]).
  - left. split; [reflexivity|].
    intros n Hn Hnc. unfold Before. apply Z.ltb_ge. now apply Hall.
  - right. exists node. simpl fst. rewrite Z.sub_0_r in *.
    split; [exact Hi|]. split; [exact Hnth|]. split; [exact Hnc|].
    split; [unfold Before; apply Z.ltb_lt; lia|].
    split; [intros n Hn Hc; rewrite Hts; now apply Hall|].
    intros j n Hj Hn Hc. rewrite Hts. now apply (Hfirst j n).
Qed.

End ScanExtras.

Section RunExtras.
Import config reaper main scenarios runs histories moreScenarios.

Lemma Harvest_run (m : theGrimReaper) (node : string) (h : History) :
  Harvest m node h =
  match CordonNode (nodeClient m) h node with
  | Some e => (Ok (Some e), h ++ [CallCordonNode node])
  | None =>
      match DrainNode (nodeClient m)
              (h ++ [CallCordonNode node; CallTimeSleep (DelayAfterCordon (config m))])
              node with
      | Some e => (Ok (Some e), h ++ harvestCalls (config m) node)
      | None => (Ok None, h ++ harvestCalls (config m) node)
      end
  end.
Proof.
  unfold Harvest, timeSleep, bind, invoke, harvestCalls.
  destruct (CordonNode (nodeClient m) h node); [reflexivity|].
  rewrite <- !app_assoc. simpl.
  destruct (DrainNode _ _ _); reflexivity.
Qed.

(** X9: the harvest loop works through [reap] in order and stops at the first
    failure.  For some [k], the first [k] nodes were each cordoned, left alone
    for [DelayAfterCordon] and drained, without error.  Then either [k] is the
    length of the list and the loop returns [nil]; or node number [k] failed
    and its error is returned: its cordon was refused (and then neither the
    sleep nor the drain follow), or its drain failed.  Nothing is sent for the
    nodes after it. *)
Theorem harvestLoop_harvests_a_prefix (m : theGrimReaper) (reap : list string) :
  forall h, exists k,
    (k <= List.length reap)%nat /\
    ((harvestLoop m reap h
      = (Ok None, h ++ flat_map (harvestCalls (config m)) reap) /\
      k = List.length reap) \/
     (exists node e,
        nth_error reap k = Some node /\
        ((CordonNode (nodeClient m)
            (h ++ flat_map (harvestCalls (config m)) (firstn k reap)) node = Some e /\
          harvestLoop m reap h
          = (Ok (Some e),
             (h ++ flat_map (harvestCalls (config m)) (firstn k reap))
             ++ [CallCordonNode node])) \/
         (DrainNode (nodeClient m)
            ((h ++ flat_map (harvestCalls (config m)) (firstn k reap))
             ++ [CallCordonNode node; CallTimeSleep (DelayAfterCordon (config m))])
            node = Some e /\
          harvestLoop m reap h
          = (Ok (Some e),
             (h ++ flat_map (harvestCalls (config m)) (firstn k reap))
             ++ harvestCalls (config m) node))))).
Proof.
  induction reap as [|n reap IH]; intros h.
  - exists 0%nat. split; [reflexivity|]. left. simpl. now rewrite app_nil_r.
  - rewrite harvestLoop_cons, Harvest_run.
    destruct (CordonNode (nodeClient m) h n) as [e|] eqn:Hc.
    + exists 0%nat. split; [simpl; lia|]. right. exists n, e.
      split; [reflexivity|]. left. simpl. rewrite app_nil_r. now split.
    + destruct (DrainNode (nodeClient m) _ n) as [e|] eqn:Hd.
      * exists 0%nat. split; [simpl; lia|]. right. exists n, e.
        split; [reflexivity|]. right. simpl. rewrite app_nil_r. now split.
      * destruct (IH (h ++ harvestCalls (config m) n)) as (k & Hk & Hres).
        exists (S k). split; [simpl; lia|].
        cbn [flat_map firstn nth_error]. rewrite !(app_assoc h).
        destruct Hres as [[Hrun ->] | (node & e & Hnth & Hfail)].
        -- left. now split.
        -- right. exists node, e. split; [exact Hnth|]. exact Hfail.
Qed.

(** Whatever a selection returns or however it ends, it sends nothing but the
    listing, readings of the clock and deal-breaker queries. *)
Lemma reapLoop_calls (m : theGrimReaper) (clock : Clock)
    (allNodes : list Node) (nodesToReap : Z) :
  forall iterations consideredNodes reap passover h,
  exists sel,
    snd (reapLoop m clock iterations allNodes nodesToReap consideredNodes reap passover h)
    = h ++ sel /\
    forallb isSelectionCall sel = true.
Proof.
  induction iterations as [|it iterations IH]; intros consideredNodes reap passover h.
  - exists []. simpl. now rewrite app_nil_r.
  - simpl. unfold bind at 1. unfold timeNow, invoke at 1. unfold bind at 1.
    destruct (index_cases (E := Call) allNodes
                (fst (scanOldest allNodes 0 consideredNodes (clock h) (-1)))
                (h ++ [CallTimeNow]))
      as [Hp | (node & Hb & Hnth & Hix)]; rewrite ?Hp, ?Hix.
    + exists [CallTimeNow]. now split.
    + unfold bind at 1, invoke at 1.
      destruct (HasDealBreakerPods _ _ _) as [dealBreak [err|]].
      * exists [CallTimeNow; CallHasDealBreakerPods (Name node)].
        simpl. now rewrite <- app_assoc.
      * destruct (len _ =? nodesToReap).
        -- exists [CallTimeNow; CallHasDealBreakerPods (Name node)].
           simpl. now rewrite <- app_assoc.
        -- match goal with
           | |- context [reapLoop m clock iterations allNodes nodesToReap ?c ?r ?p ?h0] =>
               destruct (IH c r p h0) as (sel & -> & Hsel)
           end.
           exists (CallTimeNow :: CallHasDealBreakerPods (Name node) :: sel).
           split; [now rewrite <- !app_assoc | exact Hsel].
Qed.

Lemma GetNodesToReap_calls (m : theGrimReaper) (clock : Clock) (h : History) :
  exists sel,
    snd (GetNodesToReap m clock h) = h ++ sel /\ forallb isSelectionCall sel = true.
Proof.
  unfold GetNodesToReap, bind at 1, invoke at 1.
  destruct (ListNodes _ _ _) as [allNodes [err|]].
  - exists [CallListNodes (NodeLabelSelector (config m))]. now split.
  - match goal with
    | |- context [reapLoop m clock ?it ?a ?t ?c ?r ?p ?h0] =>
        destruct (reapLoop_calls m clock a t it c r p h0) as (sel & -> & Hsel)
    end.
    exists (CallListNodes (NodeLabelSelector (config m)) :: sel).
    split; [now rewrite <- app_assoc | exact Hsel].
Qed.

(** However the harvest loop ends, each call it sends is one of the calls of
    the harvest of a node of [reap]. *)
Lemma harvestLoop_calls (m : theGrimReaper) (reap : list string) :
  forall h, exists harv,
    snd (harvestLoop m reap h) = h ++ harv /\
    forall c, In c harv ->
      exists name, In name reap /\ In c (harvestCalls (config m) name).
Proof.
  induction reap as [|n reap IH]; intros h.
  - exists []. simpl. split; [now rewrite app_nil_r | intros c []].
  - rewrite harvestLoop_cons, Harvest_run.
    assert (Hown : forall c, In c (harvestCalls (config m) n) ->
              exists name, In name (n :: reap) /\ In c (harvestCalls (config m) name)).
    { intros c Hc. exists n. split; [now left | exact Hc]. }
    destruct (CordonNode (nodeClient m) h n) as [e|].
    + exists [CallCordonNode n]. split; [reflexivity|].
      intros c [<- | []]. apply Hown. now left.
    + destruct (DrainNode (nodeClient m) _ n) as [e|].
      * exists (harvestCalls (config m) n). split; [reflexivity | exact Hown].
      * destruct (IH (h ++ harvestCalls (config m) n)) as (harv & -> & Hharv).
        exists (harvestCalls (config m) n ++ harv).
        split; [now rewrite app_assoc|].
        intros c Hc. apply in_app_or in Hc. destruct Hc as [Hc | Hc].
        -- now apply Hown.
        -- destruct (Hharv c Hc) as (name & Hin & Hcall).
           exists name. split; [now right | exact Hcall].
Qed.

(** The harvest loop returns [nil] only with every node harvested. *)
Lemma harvestLoop_nil_or_error (m : theGrimReaper) (reap : list string) :
  forall h,
    harvestLoop m reap h = (Ok None, h ++ flat_map (harvestCalls (config m)) reap) \/
    exists e h', harvestLoop m reap h = (Ok (Some e), h').
Proof.
  induction reap as [|n reap IH]; intros h.
  - left. simpl. now rewrite app_nil_r.
  - rewrite harvestLoop_cons, Harvest_run.
    destruct (CordonNode (nodeClient m) h n) as [e|]; [right; eauto|].
    destruct (DrainNode (nodeClient m) _ n) as [e|]; [right; eauto|].
    destruct (IH (h ++ harvestCalls (config m) n)) as [-> | Herr]; [left | now right].
    cbn [flat_map]. now rewrite app_assoc.
Qed.

(** X10: the order of a run, however it ends (also in an error or a panic).
    Its calls are first those of the selection, then marking requests, then
    calls of the harvest; and every cordon, sleep and drain of the harvest is
    that of a node whose marking request was sent before: [runGrimReaper]
    never cordons or drains a node it has not marked. *)
Theorem runGrimReaper_marks_before_harvest (config : Settings)
    (nodeClient : NodeInterface) (clock : Clock) (h : History) :
  exists sel marked harv,
    snd (runGrimReaper config nodeClient clock h)
    = h ++ sel ++ map CallMarkNodeToDrain marked ++ harv /\
    forallb isSelectionCall sel = true /\
    (forall c, In c harv ->
       exists name, In name marked /\ In c (harvestCalls config name)).
Proof.
  set (m := NewGrimReaper config nodeClient).
  destruct (GetNodesToReap_calls m clock h) as (sel & Hsel & Hcalls).
  unfold runGrimReaper. fold m. unfold bind at 1.
  destruct (GetNodesToReap m clock h) as [[[[reap passover] [err|]] | | ] h0] eqn:Hget;
    simpl in Hsel; subst h0;
    try (exists sel, [], []; simpl; rewrite app_nil_r;
         split; [reflexivity|]; split; [exact Hcalls | intros c []]).
  unfold bind at 1.
  destruct (MarkNodesForDestruction_run m reap (h ++ sel)) as (k & Hk & Hh & _ & Hres).
  destruct (MarkNodesForDestruction m reap (h ++ sel)) as [r h1] eqn:Hmark.
  simpl in Hh, Hres. subst h1. unfold markedHistory.
  destruct Hres as [(-> & -> & _) | (e & -> & _)].
  - rewrite firstn_all.
    destruct (harvestLoop_calls m reap ((h ++ sel) ++ map CallMarkNodeToDrain reap))
      as (harv & -> & Hharv).
    exists sel, reap, harv. rewrite <- !app_assoc.
    split; [reflexivity|]. split; [exact Hcalls | exact Hharv].
  - exists sel, (firstn k reap), []. simpl. rewrite app_nil_r, <- app_assoc.
    split; [reflexivity|]. split; [exact Hcalls | intros c []].
Qed.

(** X11: a run that returns [nil] has done everything.  The selection
    returned without error, and after it the run sent the marking request of
    every selected name and then, name by name in the same order, cordon, the
    sleep of [DelayAfterCordon] and drain; nothing else. *)
Theorem runGrimReaper_nil_is_complete (config : Settings)
    (nodeClient : NodeInterface) (clock : Clock) (h h' : History) :
  runGrimReaper config nodeClient clock h = (Ok None, h') ->
  exists reap passover h0,
    GetNodesToReap (NewGrimReaper config nodeClient) clock h
    = (Ok (reap, passover, None), h0) /\
    h' = h0 ++ map CallMarkNodeToDrain reap ++ flat_map (harvestCalls config) reap.
Proof.
  set (m := NewGrimReaper config nodeClient).
  unfold runGrimReaper. fold m. unfold bind at 1.
  destruct (GetNodesToReap m clock h) as [[[[reap passover] [err|]] | | ] h0] eqn:Hget;
    try discriminate.
  unfold bind at 1.
  destruct (MarkNodesForDestruction_run m reap h0) as (k & Hk & Hh & _ & Hres).
  destruct (MarkNodesForDestruction m reap h0) as [r h1] eqn:Hmark.
  simpl in Hh, Hres. subst h1. unfold markedHistory.
  destruct Hres as [(-> & -> & _) | (e & -> & _)]; [|discriminate].
  rewrite firstn_all. intros Hrun.
  exists reap, passover, h0. split; [reflexivity|].
  destruct (harvestLoop_nil_or_error m reap (h0 ++ map CallMarkNodeToDrain reap))
    as [Hall | (e & h1 & Herr)].
  - rewrite Hall in Hrun. injection Hrun as <-. now rewrite <- app_assoc.
  - rewrite Herr in Hrun. discriminate.
Qed.

(** Four quiet nodes, two entries to reap. *)
Lemma runGrimReaper_nil_is_complete_witness :
  exists reap passover h0,
    GetNodesToReap (NewGrimReaper (settingsWith 1 5 (1 # 2)) (quietGateway fourNodes))
      noon []
    = (Ok (reap, passover, None), h0) /\
    snd (runGrimReaper (settingsWith 1 5 (1 # 2)) (quietGateway fourNodes) noon [])
    = h0 ++ map CallMarkNodeToDrain reap
         ++ flat_map (harvestCalls (settingsWith 1 5 (1 # 2))) reap.
Proof.
  apply (runGrimReaper_nil_is_complete
           (settingsWith 1 5 (1 # 2)) (quietGateway fourNodes) noon []).
  reflexivity.
Defined.

End RunExtras.

Section EvictExtras.
Import config kubernetes scenarios runs histories moreScenarios.

Section AnyPod.
Variable m : kubernetesPodEvictor.
Variable abort : History -> bool.
Variable pod : Pod.

Lemma retried_shift (h : History) (k : nat) :
  retried m pod (h ++ [evictRequest m pod; CallTimeSleep (5 * Second)]) k
  = retried m pod h (S k).
Proof. unfold retried. now rewrite <- app_assoc. Qed.

(** One iteration of the loop of [evict]. *)
Lemma evictLoop_step (fuel : nat) (h : History) :
  evictLoop m abort (S fuel) pod (terminationGracePeriodOf m pod) h =
  if abort h then (Ok (Some abortedError), h)
  else
    match PodsEvict (client m) h (Namespace pod) (Name pod)
            (terminationGracePeriodOf m pod) with
    | None => (Ok (Some (unableToTellError pod)), h ++ [evictRequest m pod])
    | Some e =>
        if IsNotFound e then (Ok None, h ++ [evictRequest m pod])
        else if IsTooManyRequests e
             then evictLoop m abort fuel pod (terminationGracePeriodOf m pod)
                    (h ++ [evictRequest m pod; CallTimeSleep (5 * Second)])
             else (Ok (Some (evictingError e pod)), h ++ [evictRequest m pod])
    end.
Proof.
  simpl. unfold bind, selectAbort, invoke, timeSleep, evictRequest.
  destruct (abort h); [reflexivity|].
  destruct (PodsEvict _ _ _ _ _) as [e|]; [|reflexivity].
  destruct (IsNotFound e); [reflexivity|].
  destruct (IsTooManyRequests e); simpl; [|reflexivity].
  now rewrite <- app_assoc.
Qed.

(** X12: [evict] sends nothing but the eviction request of its pod, always
    with the same grace period, and between two requests it sleeps exactly
    once, for 5 seconds.  This holds for every gateway and every course of
    [abort], whatever [evict] returns and also when it does not return:
    the history is a number of rounds of request and sleep, followed by at
    most one more request. *)
Theorem evict_sends_only_its_request (fuel : nat) :
  forall h, exists k,
    (k <= fuel)%nat /\
    (snd (evict m abort fuel pod h) = retried m pod h k \/
     snd (evict m abort fuel pod h) = retried m pod h k ++ [evictRequest m pod]).
Proof.
  unfold evict. induction fuel as [|fuel IH]; intros h.
  - exists 0%nat. split; [lia|]. left. rewrite retried_zero. reflexivity.
  - rewrite evictLoop_step.
    destruct (abort h).
    { exists 0%nat. split; [lia|]. left. rewrite retried_zero. reflexivity. }
    destruct (PodsEvict _ _ _ _ _) as [e|].
    + destruct (IsNotFound e).
      { exists 0%nat. split; [lia|]. right. rewrite retried_zero. reflexivity. }
      destruct (IsTooManyRequests e).
      * destruct (IH (h ++ [evictRequest m pod; CallTimeSleep (5 * Second)]))
          as (k & Hk & Hsnd).
        rewrite retried_shift in Hsnd.
        exists (S k). split; [lia | exact Hsnd].
      * exists 0%nat. split; [lia|]. right. rewrite retried_zero. reflexivity.
    + exists 0%nat. split; [lia|]. right. rewrite retried_zero. reflexivity.
Qed.

(** X13: [evict] returns [nil] only for a pod the gateway reported gone: the
    last call of the run is an eviction request, sent with [abort] open, and
    the gateway's response to it is a not-found error.  In particular a
    response without error never makes [evict] return [nil]. *)
Theorem evict_nil_only_on_not_found (fuel : nat) :
  forall h h',
    evict m abort fuel pod h = (Ok None, h') ->
    exists h1 e,
      h' = h1 ++ [evictRequest m pod] /\
      abort h1 = false /\
      PodsEvict (client m) h1 (Namespace pod) (Name pod) (terminationGracePeriodOf m pod)
      = Some e /\
      IsNotFound e = true.
Proof.
  unfold evict. induction fuel as [|fuel IH]; intros h h' Hrun.
  - discriminate.
  - rewrite evictLoop_step in Hrun.
    destruct (abort h) eqn:Ha; [discriminate|].
    destruct (PodsEvict _ _ _ _ _) as [e|] eqn:Hr; [|discriminate].
    destruct (IsNotFound e) eqn:Hnf.
    + injection Hrun as <-. exists h, e. repeat split; assumption.
    + destruct (IsTooManyRequests e); [|discriminate].
      exact (IH _ _ Hrun).
Qed.

End AnyPod.

Lemma evict_nil_only_on_not_found_witness :
  exists h1 e,
    [CallPodsEvict "kube-system" "proxy-1" 30; CallTimeSleep 5000000000;
     CallPodsEvict "kube-system" "proxy-1" 30; CallTimeSleep 5000000000;
     CallPodsEvict "kube-system" "proxy-1" 30]
    = h1 ++ [evictRequest (evictorWith (fun _ => None) throttledTwice) daemonPod] /\
    (fun _ : History => false) h1 = false /\
    PodsEvict (client (evictorWith (fun _ => None) throttledTwice)) h1
      (Namespace daemonPod) (Name daemonPod)
      (terminationGracePeriodOf (evictorWith (fun _ => None) throttledTwice) daemonPod)
    = Some e /\
    IsNotFound e = true.
Proof.
  apply (evict_nil_only_on_not_found
           (evictorWith (fun _ => None) throttledTwice) (fun _ => false) daemonPod 3 []).
  reflexivity.
Defined.

End EvictExtras.

Section CoordinatorExtras.
Import config kubernetes scenarios runs histories moreScenarios.

Lemma setTask_nth (ts : list Task) :
  forall i j t,
    nth_error (setTask ts i t) j
    = if Nat.eqb i j then option_map (fun _ => t) (nth_error ts j) else nth_error ts j.
Proof.
  induction ts as [|t0 ts IH]; intros i j t.
  - destruct i, j; simpl; try reflexivity; now destruct (Nat.eqb i j).
  - destruct i, j; simpl; try reflexivity. apply IH.
Qed.

Lemma all_exited (ts : list Task) :
  List.length (filter isExited ts) = List.length ts ->
  forall i t, nth_error ts i = Some t -> t = Exited.
Proof.
  induction ts as [|t0 ts IH]; intros Hlen [|i] t Hnth; simpl in *; try discriminate.
  - injection Hnth as ->. destruct t; simpl in Hlen; try reflexivity;
      pose proof (filter_length_le isExited ts); lia.
  - apply (IH) with (i := i); [|exact Hnth].
    destruct (isExited t0); simpl in Hlen; [lia|].
    pose proof (filter_length_le isExited ts). lia.
Qed.

(** With [evictPods] returned and every goroutine finished nothing moves. *)
Lemma finished_run (schedule : list Label) (s s' : State) (err : option error) :
  coordinator s = ReturnedWith err ->
  exitedTasks s = List.length (tasks s) ->
  run s schedule = Some s' ->
  schedule = [].
Proof.
  intros Hc Hall Hrun. destruct schedule as [|l schedule]; [reflexivity|].
  simpl in Hrun. unfold exitedTasks in Hall.
  destruct l as [i r | i | | | ]; simpl in Hrun; rewrite ?Hc in Hrun; try discriminate.
  - destruct (nth_error (tasks s) i) as [t|] eqn:Hnth; [|discriminate].
    rewrite (all_exited _ Hall i t Hnth) in Hrun. discriminate.
  - destruct (nth_error (tasks s) i) as [t|] eqn:Hnth; [|discriminate].
    rewrite (all_exited _ Hall i t Hnth) in Hrun. discriminate.
Qed.

(** A run from a collecting state to the return of [nil]. *)
Lemma nil_run (k : nat) (schedule : list Label) :
  forall s s' remaining,
    Accounted k s ->
    coordinator s = Collecting remaining ->
    run s schedule = Some s' ->
    coordinator s' = ReturnedWith None ->
    evictsReturnNil schedule /\
    (forall i r, nth_error (tasks s) i = Some (Sending r) -> r = None) /\
    (forall r, In r (results s) -> r = None) /\
    exitedTasks s' = k /\ results s' = [].
Proof.
  induction schedule as [|l schedule IH]; intros s s' remaining Hacc Hc Hrun Hnil.
  - injection Hrun as <-. congruence.
  - simpl in Hrun. destruct (step s l) as [s1|] eqn:Hstep; [|discriminate].
    pose proof (Accounted_step k s s1 l Hacc Hstep) as Hacc1.
    destruct (coordinator s1) as [remaining1 | err1] eqn:Hc1.
    + (* still collecting *)
      destruct (IH s1 s' remaining1 Hacc1 Hc1 Hrun Hnil) as (Hsched & Htasks & Hres & Hfin).
      destruct l as [i r | i | | | ]; simpl in Hstep.
      * destruct (nth_error (tasks s) i) as [[p|r0|]|] eqn:Hnth; try discriminate.
        injection Hstep as <-. simpl in *.
        assert (Hr : r = None).
        { apply (Htasks i). rewrite setTask_nth, Nat.eqb_refl, Hnth. reflexivity. }
        subst r. split; [|split; [|split; [exact Hres | exact Hfin]]].
        -- intros j r [Heq | Hin]; [now injection Heq as _ <- | exact (Hsched j r Hin)].
        -- intros j r Hj. apply (Htasks j). rewrite setTask_nth.
           destruct (Nat.eqb_spec i j) as [<- | Hne]; [congruence | exact Hj].
      * destruct (nth_error (tasks s) i) as [[p|r0|]|] eqn:Hnth; try discriminate.
        destruct (List.length (results s) <? resultsCapacity)%nat; [|discriminate].
        injection Hstep as <-. simpl in *.
        split; [|split; [|split; [|exact Hfin]]].
        -- intros j r [Heq | Hin]; [discriminate | exact (Hsched j r Hin)].
        -- intros j r Hj. destruct (Nat.eqb_spec i j) as [<- | Hne].
           ++ rewrite Hnth in Hj. injection Hj as <-.
              apply Hres. apply in_or_app. right. now left.
           ++ apply (Htasks j). rewrite setTask_nth.
              destruct (Nat.eqb_spec i j); [contradiction | exact Hj].
        -- intros r Hr. apply Hres. apply in_or_app. now left.
      * rewrite Hc in Hstep. destruct remaining as [|remaining]; [discriminate|].
        destruct (results s) as [|[err|] rest] eqn:Hbuf; try discriminate.
        -- injection Hstep as <-. simpl in Hc1. discriminate.
        -- injection Hstep as <-. simpl in *.
           split; [|split; [exact Htasks | split; [|exact Hfin]]].
           ++ intros j r [Heq | Hin]; [discriminate | exact (Hsched j r Hin)].
           ++ intros r [<- | Hr]; [reflexivity | now apply Hres].
      * rewrite Hc in Hstep. destruct remaining; [discriminate|].
        injection Hstep as <-. simpl in Hc1. discriminate.
      * rewrite Hc in Hstep. destruct remaining; [|discriminate].
        injection Hstep as <-. simpl in Hc1. discriminate.
    + (* this move is the return *)
      destruct (returned_run schedule s1 s' err1 Hc1 Hrun) as (Hc' & _ & Hex).
      assert (err1 = None) by congruence. subst err1.
      destruct l as [i r | i | | | ]; simpl in Hstep.
      * destruct (nth_error (tasks s) i) as [[p|r0|]|]; try discriminate.
        injection Hstep as <-. simpl in Hc1. congruence.
      * destruct (nth_error (tasks s) i) as [[p|r0|]|]; try discriminate.
        destruct (List.length (results s) <? resultsCapacity)%nat; [|discriminate].
        injection Hstep as <-. simpl in Hc1. congruence.
      * rewrite Hc in Hstep. destruct remaining as [|remaining]; [discriminate|].
        destruct (results s) as [|[err|] rest]; try discriminate;
          injection Hstep as <-; simpl in Hc1; discriminate.
      * rewrite Hc in Hstep. destruct remaining; [discriminate|].
        injection Hstep as <-. simpl in Hc1. discriminate.
      * rewrite Hc in Hstep. destruct remaining; [|discriminate].
        injection Hstep as <-.
        destruct Hacc as (Hlen & Hcap & Hinv). rewrite Hc in Hinv.
        pose proof (exited_plus_live s) as Hsum.
        assert (Hbuf : results s = []).
        { destruct (results s); [reflexivity | simpl in Hinv; lia]. }
        rewrite Hbuf in *. simpl in Hinv.
        assert (Hall : exitedTasks s = List.length (tasks s)) by lia.
        assert (Hempty : schedule = []).
        { apply (finished_run schedule (returnWith s None []) s' None);
            [reflexivity | exact Hall | exact Hrun]. }
        subst schedule. injection Hrun as <-. simpl.
        split; [|split; [|split; [|split; [exact (eq_trans Hall Hlen) | reflexivity]]]].
        -- intros j r [Heq | []]. discriminate.
        -- intros j r Hj. unfold exitedTasks in Hall.
           pose proof (all_exited _ Hall j _ Hj). discriminate.
        -- intros r [].
Qed.

(** X14: [evictPods] returns [nil] only when the drain is complete.  In
    every run on the pods of a node in which it returns [nil], every call of
    [evict] that returned had returned [nil], every goroutine has sent its
    result and finished, and the buffer of [results] is empty: no goroutine
    outlives a successful drain. *)
Theorem evictPods_nil_is_complete (pods : list Pod) (schedule : list Label) (s : State) :
  run (evictPodsStart pods) schedule = Some s ->
  coordinator s = ReturnedWith None ->
  evictsReturnNil schedule /\
  exitedTasks s = List.length pods /\
  liveTasks s = 0%nat /\
  results s = [].
Proof.
  intros Hrun Hnil.
  destruct (nil_run (List.length pods) schedule (evictPodsStart pods) s (List.length pods)
              (Accounted_start pods) eq_refl Hrun Hnil)
    as (Hsched & _ & _ & Hex & Hbuf).
  pose proof (Accounted_run _ schedule _ _ (Accounted_start pods) Hrun) as (Hlen & _ & _).
  pose proof (exited_plus_live s) as Hsum.
  split; [exact Hsched|]. split; [exact Hex|]. split; [lia | exact Hbuf].
Qed.

(** Two pods, both evicted: each [evict] returns [nil], each result is
    sent and received, then the loop is over. *)
Lemma evictPods_nil_is_complete_witness :
  evictsReturnNil
    [EvictReturns 1 None; TaskSends 1; CoordinatorReceives;
     EvictReturns 0 None; TaskSends 0; CoordinatorReceives; CoordinatorFinishes] /\
  exitedTasks
    {| coordinator := ReturnedWith None; tasks := [Exited; Exited];
       results := []; abortClosed := true |} = List.length [plainPod; daemonPod] /\
  liveTasks
    {| coordinator := ReturnedWith None; tasks := [Exited; Exited];
       results := []; abortClosed := true |} = 0%nat /\
  results
    {| coordinator := ReturnedWith None; tasks := [Exited; Exited];
       results := []; abortClosed := true |} = [].
Proof.
  apply (evictPods_nil_is_complete [plainPod; daemonPod]
           [EvictReturns 1 None; TaskSends 1; CoordinatorReceives;
            EvictReturns 0 None; TaskSends 0; CoordinatorReceives; CoordinatorFinishes]);
    reflexivity.
Defined.


Lemma abort_follows_return_step (s s' : State) (l : Label) :
  abortClosed s = (match coordinator s with ReturnedWith _ => true | Collecting _ => false end) ->
  step s l = Some s' ->
  abortClosed s' = (match coordinator s' with ReturnedWith _ => true | Collecting _ => false end).
Proof.
  intros Hinv Hstep.
  destruct l as [i r | i | | | ]; simpl in Hstep.
  - destruct (nth_error (tasks s) i) as [[p|r0|]|]; try discriminate.
    injection Hstep as <-. exact Hinv.
  - destruct (nth_error (tasks s) i) as [[p|r0|]|]; try discriminate.
    destruct (List.length (results s) <? resultsCapacity)%nat; [|discriminate].
    injection Hstep as <-. exact Hinv.
  - destruct (coordinator s) as [[|remaining]|e]; try discriminate.
    destruct (results s) as [|[err|] rest]; try discriminate;
      injection Hstep as <-; [reflexivity | exact Hinv].
  - destruct (coordinator s) as [[|remaining]|e]; try discriminate.
    injection Hstep as <-. reflexivity.
  - destruct (coordinator s) as [[|remaining]|e]; try discriminate.
    injection Hstep as <-. reflexivity.
Qed.

(** X15: [abort] is closed exactly when [evictPods] has returned.  In every
    state of every run, [abort] is open while the coordinator collects
    results, so that no goroutine is told to give up while its result is
    still awaited, and closed once the coordinator has returned, with an
    error or with [nil]. *)
Theorem evictPods_abort_closed_iff_returned (pods : list Pod) (schedule : list Label) :
  forall s,
    run (evictPodsStart pods) schedule = Some s ->
    abortClosed s
    = match coordinator s with ReturnedWith _ => true | Collecting _ => false end.
Proof.
  assert (Hgen : forall s0 s,
             abortClosed s0
             = match coordinator s0 with ReturnedWith _ => true | Collecting _ => false end ->
             run s0 schedule = Some s ->
             abortClosed s
             = match coordinator s with ReturnedWith _ => true | Collecting _ => false end).
  { induction schedule as [|l schedule IH]; intros s0 s Hinv Hrun; simpl in Hrun.
    - now injection Hrun as <-.
    - destruct (step s0 l) as [s1|] eqn:Hstep; [|discriminate].
      exact (IH s1 s (abort_follows_return_step s0 s1 l Hinv Hstep) Hrun). }
  intros s Hrun. exact (Hgen (evictPodsStart pods) s eq_refl Hrun).
Qed.

Lemma evictPods_abort_closed_iff_returned_witness :
  abortClosed
    {| coordinator := Collecting 1; tasks := [Exited; Sending None];
       results := []; abortClosed := false |}
  = false.
Proof.
  apply (evictPods_abort_closed_iff_returned [plainPod; daemonPod]
           [EvictReturns 0 None; EvictReturns 1 None; TaskSends 0; CoordinatorReceives]).
  reflexivity.
Defined.

(** Where the error of a run from a collecting state comes from. *)
Lemma error_run (schedule : list Label) :
  forall s s' remaining e,
    coordinator s = Collecting remaining ->
    run s schedule = Some s' ->
    coordinator s' = ReturnedWith (Some e) ->
    (0 < remaining)%nat /\
    (e = timedOutError \/
     exists err,
       e = errorsWrap err "error evicting pod" /\
       (In (Some err) (results s) \/
        (exists i, nth_error (tasks s) i = Some (Sending (Some err))) \/
        (exists i, In (EvictReturns i (Some err)) schedule))).
Proof.
  induction schedule as [|l schedule IH]; intros s s' remaining e Hc Hrun Herr.
  - injection Hrun as <-. congruence.
  - simpl in Hrun. destruct (step s l) as [s1|] eqn:Hstep; [|discriminate].
    destruct l as [i r | i | | | ]; simpl in Hstep.
    + destruct (nth_error (tasks s) i) as [[p|r0|]|] eqn:Hnth; try discriminate.
      injection Hstep as Hs1.
      assert (Hc1 : coordinator s1 = Collecting remaining) by (rewrite <- Hs1; exact Hc).
      destruct (IH s1 s' remaining e Hc1 Hrun Herr) as (Hpos & Hfrom).
      split; [exact Hpos|].
      destruct Hfrom as [-> | (err & -> & Hfrom)]; [now left | right].
      exists err. split; [reflexivity|]. rewrite <- Hs1 in Hfrom. simpl in Hfrom.
      destruct Hfrom as [Hbuf | [(j & Hj) | (j & Hj)]].
      * now left.
      * rewrite setTask_nth in Hj. destruct (Nat.eqb i j) eqn:Hij.
        -- apply Nat.eqb_eq in Hij. subst j. rewrite Hnth in Hj. injection Hj as ->.
           right. right. exists i. now left.
        -- right. left. now exists j.
      * right. right. exists j. now right.
    + destruct (nth_error (tasks s) i) as [[p|r0|]|] eqn:Hnth; try discriminate.
      destruct (List.length (results s) <? resultsCapacity)%nat; [|discriminate].
      injection Hstep as Hs1.
      assert (Hc1 : coordinator s1 = Collecting remaining) by (rewrite <- Hs1; exact Hc).
      destruct (IH s1 s' remaining e Hc1 Hrun Herr) as (Hpos & Hfrom).
      split; [exact Hpos|].
      destruct Hfrom as [-> | (err & -> & Hfrom)]; [now left | right].
      exists err. split; [reflexivity|]. rewrite <- Hs1 in Hfrom. simpl in Hfrom.
      destruct Hfrom as [Hbuf | [(j & Hj) | (j & Hj)]].
      * apply in_app_or in Hbuf. destruct Hbuf as [Hbuf | [Heq | []]].
        -- now left.
        -- subst r0. right. left. now exists i.
      * rewrite setTask_nth in Hj. destruct (Nat.eqb i j) eqn:Hij.
        -- apply Nat.eqb_eq in Hij. subst j. rewrite Hnth in Hj. discriminate.
        -- right. left. now exists j.
      * right. right. exists j. now right.
    + rewrite Hc in Hstep. destruct remaining as [|remaining]; [discriminate|].
      split; [lia|].
      destruct (results s) as [|[err|] rest] eqn:Hbuf; try discriminate;
        injection Hstep as <-.
      * match type of Hrun with run ?st _ = _ =>
        destruct (returned_run schedule st s' _ eq_refl Hrun) as (Hc' & _) end.
        rewrite Hc' in Herr. injection Herr as <-.
        right. exists err. split; [reflexivity|]. left. now left.
      * destruct (IH {| coordinator := Collecting remaining; tasks := tasks s;
                        results := rest; abortClosed := abortClosed s |}
                    s' remaining e eq_refl Hrun Herr) as (_ & Hfrom).
        destruct Hfrom as [-> | (err & -> & Hfrom)]; [now left | right].
        exists err. split; [reflexivity|]. simpl in Hfrom.
        destruct Hfrom as [Hin | [(j & Hj) | (j & Hj)]].
        -- left. now right.
        -- right. left. now exists j.
        -- right. right. exists j. now right.
    + rewrite Hc in Hstep. destruct remaining as [|remaining]; [discriminate|].
      injection Hstep as <-. split; [lia|].
      match type of Hrun with run ?st _ = _ =>
        destruct (returned_run schedule st s' _ eq_refl Hrun) as (Hc' & _) end.
      rewrite Hc' in Herr. injection Herr as <-. now left.
    + rewrite Hc in Hstep. destruct remaining as [|remaining]; [|discriminate].
      injection Hstep as <-.
      match type of Hrun with run ?st _ = _ =>
        destruct (returned_run schedule st s' _ eq_refl Hrun) as (Hc' & _) end.
      rewrite Hc' in Herr. discriminate.
Qed.

(** X16: [evictPods] invents no error.  When it returns an error there was
    at least one pod to evict, and the error is either the timeout error or
    the error some call of [evict] returned, wrapped with the message
    "error evicting pod".  A node without evictable pods always drains
    without error. *)
Theorem evictPods_error_comes_from_evict (pods : list Pod) (schedule : list Label)
    (s : State) (e : error) :
  run (evictPodsStart pods) schedule = Some s ->
  coordinator s = ReturnedWith (Some e) ->
  pods <> [] /\
  (e = timedOutError \/
   exists i err,
     In (EvictReturns i (Some err)) schedule /\
     e = errorsWrap err "error evicting pod").
Proof.
  intros Hrun Herr.
  destruct (error_run schedule (evictPodsStart pods) s (List.length pods) e
              eq_refl Hrun Herr) as (Hpos & Hfrom).
  split; [intros ->; simpl in Hpos; lia|].
  destruct Hfrom as [-> | (err & -> & [Hbuf | [(i & Hi) | (i & Hi)]])]; [now left | | |].
  - destruct Hbuf.
  - simpl in Hi. apply nth_error_In in Hi. apply in_map_iff in Hi.
    destruct Hi as (p & Hp & _). discriminate.
  - right. now exists i, err.
Qed.

(** Two pods; the eviction of the second fails with a server error. *)
Lemma evictPods_error_comes_from_evict_witness :
  [plainPod; daemonPod] <> [] /\
  (errorsWrap (evictingError serverError daemonPod) "error evicting pod" = timedOutError \/
   exists i err,
     In (EvictReturns i (Some err))
       [EvictReturns 1 (Some (evictingError serverError daemonPod));
        TaskSends 1; CoordinatorReceives] /\
     errorsWrap (evictingError serverError daemonPod) "error evicting pod"
     = errorsWrap err "error evicting pod").
Proof.
  apply (evictPods_error_comes_from_evict [plainPod; daemonPod]
           [EvictReturns 1 (Some (evictingError serverError daemonPod));
            TaskSends 1; CoordinatorReceives]
           {| coordinator :=
                ReturnedWith
                  (Some (errorsWrap (evictingError serverError daemonPod)
                           "error evicting pod"));
              tasks := [Evicting plainPod; Exited];
              results := [];
              abortClosed := true |}); reflexivity.
Defined.

End CoordinatorExtras.

(** ** The node client *)
Section NodeClientExtras.
Import config kubernetesNode scenarios runs histories moreScenarios.

Lemma filterPods_run (m : kubernetesNodeInterface) (items : list kubernetes.Pod) :
  forall evictPods h,
    filterPods m items evictPods h
    = (Ok (evictPods ++ keep items (guardAnswers m h items)),
       h ++ map CallShouldEvict items).
Proof.
  induction items as [|pod items IH]; intros evictPods h.
  - simpl. unfold ret. now rewrite !app_nil_r.
  - simpl. unfold bind at 1, invoke at 1. rewrite IH.
    rewrite <- app_assoc. simpl.
    destruct (shouldEvict (evictor m) h pod); unfold append.
    + now rewrite <- app_assoc.
    + reflexivity.
Qed.

(** The two ways [listPodsToEvict] ends. *)
Lemma listPodsToEvict_run_aux (m : kubernetesNodeInterface)
    (nodeName : string) (h : History) :
  (forall pods,
     PodsList (client m) h nodeName = (pods, None) ->
     listPodsToEvict m nodeName h
     = (Ok (keep pods (guardAnswers m (h ++ [CallPodsList nodeName]) pods), None),
        (h ++ [CallPodsList nodeName]) ++ map CallShouldEvict pods)) /\
  (forall pods err,
     PodsList (client m) h nodeName = (pods, Some err) ->
     listPodsToEvict m nodeName h = (Ok ([], Some err), h ++ [CallPodsList nodeName])).
Proof.
  split.
  - intros pods Hlist. unfold listPodsToEvict, bind at 1, invoke at 1. rewrite Hlist.
    unfold bind at 1. rewrite filterPods_run. reflexivity.
  - intros pods err Hlist. unfold listPodsToEvict, bind at 1, invoke at 1.
    now rewrite Hlist.
Qed.

Lemma keep_sublist {A} (xs : list A) :
  forall answers x, In x (keep xs answers) -> In x xs.
Proof.
  induction xs as [|y xs IH]; intros [|b answers] x Hx; simpl in Hx; try contradiction.
  destruct b; [destruct Hx as [<- | Hx]; [now left | right; eauto] | right; eauto].
Qed.

Lemma keep_length {A} (xs : list A) :
  forall answers, (List.length (keep xs answers) <= List.length xs)%nat.
Proof.
  induction xs as [|y xs IH]; intros [|b answers]; simpl; try lia.
  destruct b; simpl; specialize (IH answers); lia.
Qed.

(** X17: [listPodsToEvict] asks the guard about every listed pod exactly
    once, in the order of the listing, and returns, in that order, the pods
    the guard answered yes for; every pod returned was listed, and no error is
    returned.  When the listing fails it returns the listing's error and no
    pod, and the guard is not asked. *)
Theorem listPodsToEvict_keeps_guarded_pods (m : kubernetesNodeInterface)
    (nodeName : string) (h : History) :
  (forall pods,
     PodsList (client m) h nodeName = (pods, None) ->
     exists evictPods,
       listPodsToEvict m nodeName h
       = (Ok (evictPods, None),
          (h ++ [CallPodsList nodeName]) ++ map CallShouldEvict pods) /\
       evictPods = keep pods (guardAnswers m (h ++ [CallPodsList nodeName]) pods) /\
       (forall pod, In pod evictPods -> In pod pods) /\
       (List.length evictPods <= List.length pods)%nat) /\
  (forall pods err,
     PodsList (client m) h nodeName = (pods, Some err) ->
     listPodsToEvict m nodeName h = (Ok ([], Some err), h ++ [CallPodsList nodeName])).
Proof.
  destruct (listPodsToEvict_run_aux m nodeName h) as [Hok Herr].
  split; [|exact Herr].
  intros pods Hlist. eexists. split; [exact (Hok pods Hlist)|].
  split; [reflexivity|]. split; [intros pod; apply keep_sublist | apply keep_length].
Qed.

(** X18: [DrainNode].  In dry-run mode it returns [nil] without any request.
    Otherwise a failed listing ends the drain with the listing's error before
    any eviction starts; and after a listing without error [evictPods] is
    started exactly once, as the last call, on pods that were all listed for
    this node, and its error is what [DrainNode] returns. *)
Theorem DrainNode_starts_eviction_once (m : kubernetesNodeInterface)
    (evictPods : History -> string -> list kubernetes.Pod -> option error)
    (name : string) (h : History) :
  (dryRun m = true -> DrainNode m evictPods name h = (Ok None, h)) /\
  (dryRun m = false ->
   forall pods err,
     PodsList (client m) h name = (pods, Some err) ->
     DrainNode m evictPods name h = (Ok (Some err), h ++ [CallPodsList name])) /\
  (dryRun m = false ->
   forall pods,
     PodsList (client m) h name = (pods, None) ->
     exists podsToDrain h1,
       (forall pod, In pod podsToDrain -> In pod pods) /\
       h1 = (h ++ [CallPodsList name]) ++ map CallShouldEvict pods /\
       DrainNode m evictPods name h
       = (Ok (evictPods h1 name podsToDrain), h1 ++ [CallEvictPods name podsToDrain])).
Proof.
  destruct (listPodsToEvict_run_aux m name h) as [Hok Herr].
  split; [|split].
  - intros Hdry. unfold DrainNode. now rewrite Hdry.
  - intros Hdry pods err Hlist. unfold DrainNode. rewrite Hdry.
    unfold bind at 1. now rewrite (Herr pods err Hlist).
  - intros Hdry pods Hlist. unfold DrainNode. rewrite Hdry.
    unfold bind at 1. rewrite (Hok pods Hlist).
    eexists _, _. split; [|split; [reflexivity | reflexivity]].
    intros pod. apply keep_sublist.
Qed.

(** A node with the DaemonSet pod and the plain pod: the guard of the
    scenario keeps the plain pod. *)
Lemma DrainNode_starts_eviction_once_witness :
  DrainNode (nodeClientWith true [daemonPod; plainPod]) (fun _ _ _ => None) "a" []
  = (Ok None, []) /\
  exists podsToDrain h1,
    (forall pod, In pod podsToDrain -> In pod [daemonPod; plainPod]) /\
    h1 = ([] ++ [CallPodsList "a"]) ++ map CallShouldEvict [daemonPod; plainPod] /\
    DrainNode (nodeClientWith false [daemonPod; plainPod]) (fun _ _ _ => None) "a" []
    = (Ok None, h1 ++ [CallEvictPods "a" podsToDrain]).
Proof.
  split.
  - apply (DrainNode_starts_eviction_once
             (nodeClientWith true [daemonPod; plainPod]) (fun _ _ _ => None) "a" []).
    reflexivity.
  - destruct (DrainNode_starts_eviction_once
                (nodeClientWith false [daemonPod; plainPod]) (fun _ _ _ => None) "a" [])
      as (_ & _ & Hdrain).
    exact (Hdrain eq_refl [daemonPod; plainPod] eq_refl).
Defined.

Lemma listPodsToEvict_keeps_guarded_pods_witness :
  exists evictPods,
    listPodsToEvict (nodeClientWith false [daemonPod; plainPod]) "a" []
    = (Ok (evictPods, None),
       ([] ++ [CallPodsList "a"]) ++ map CallShouldEvict [daemonPod; plainPod]) /\
    evictPods
    = keep [daemonPod; plainPod]
        (guardAnswers (nodeClientWith false [daemonPod; plainPod])
           ([] ++ [CallPodsList "a"]) [daemonPod; plainPod]) /\
    (forall pod, In pod evictPods -> In pod [daemonPod; plainPod]) /\
    (List.length evictPods <= List.length [daemonPod; plainPod])%nat.
Proof.
  destruct (listPodsToEvict_keeps_guarded_pods
              (nodeClientWith false [daemonPod; plainPod]) "a" []) as [Hok _].
  exact (Hok [daemonPod; plainPod] eq_refl).
Defined.

End NodeClientExtras.

Section GuardExtras.
Import config kubernetes scenarios runs histories moreScenarios.

(** X19: the guard refuses no pod without cause.  When [shouldEvict] returns
    false, the pod has an owner reference that is its controller and of kind
    DaemonSet, the guard has sent one lookup, for that owner in the pod's
    namespace, and the lookup was answered without error or with an error
    other than not-found.  A pod without such a controller is never refused
    and costs no request. *)
Theorem shouldEvict_false_has_a_cause (m : kubernetesPodEvictor) (pod : Pod)
    (h h' : History) :
  (shouldEvict m pod h = (Ok (Return false), h') ->
   exists ref,
     In ref (OwnerReferences pod) /\
     Controller ref = Some true /\
     Kind ref = "DaemonSet" /\
     h' = h ++ [CallDaemonSetsGet (Namespace pod) (OwnerName ref)] /\
     (DaemonSetsGet (client m) h (Namespace pod) (OwnerName ref) = None \/
      exists e, DaemonSetsGet (client m) h (Namespace pod) (OwnerName ref) = Some e /\
                IsNotFound e = false)) /\
  (fst (getPodDaemonSet pod) = false -> shouldEvict m pod h = (Ok NoReturn, h)).
Proof.
  unfold shouldEvict, getPodDaemonSet.
  destruct (GetControllerOf pod) as [c|] eqn:Hc.
  - unfold GetControllerOf in Hc. apply find_some in Hc. destruct Hc as [Hin Hctl].
    destruct (String.eqb_spec (Kind c) "DaemonSet") as [Hkind | Hkind].
    + split; [|discriminate].
      unfold daemonsetExists, bind, invoke.
      destruct (DaemonSetsGet (client m) h (Namespace pod) (OwnerName c)) as [e|] eqn:Hget.
      * destruct (IsNotFound e) eqn:Hnf; simpl; [discriminate|].
        intros Hrun. injection Hrun as <-. exists c.
        split; [exact Hin|]. split; [now destruct (Controller c) as [[|]|]|].
        split; [exact Hkind|]. split; [reflexivity|]. right. now exists e.
      * simpl. intros Hrun. injection Hrun as <-. exists c.
        split; [exact Hin|]. split; [now destruct (Controller c) as [[|]|]|].
        split; [exact Hkind|]. split; [reflexivity|]. now left.
    + split; [discriminate | reflexivity].
  - split; [discriminate | reflexivity].
Qed.

Lemma shouldEvict_false_has_a_cause_witness :
  exists ref,
    In ref (OwnerReferences daemonPod) /\
    Controller ref = Some true /\
    Kind ref = "DaemonSet" /\
    [CallDaemonSetsGet "kube-system" "proxy"]
    = [] ++ [CallDaemonSetsGet (Namespace daemonPod) (OwnerName ref)] /\
    (DaemonSetsGet (client (evictorWith (fun _ => Some serverError) (fun _ => None)))
       [] (Namespace daemonPod) (OwnerName ref) = None \/
     exists e,
       DaemonSetsGet (client (evictorWith (fun _ => Some serverError) (fun _ => None)))
         [] (Namespace daemonPod) (OwnerName ref) = Some e /\
       IsNotFound e = false).
Proof.
  destruct (shouldEvict_false_has_a_cause
              (evictorWith (fun _ => Some serverError) (fun _ => None)) daemonPod
              [] [CallDaemonSetsGet "kube-system" "proxy"]) as [Hcause _].
  exact (Hcause eq_refl).
Defined.

End GuardExtras.

Section BlockedSelection.
Import config reaper main scenarios runs histories moreScenarios.

(** The loop when the node the scans find always hosts a deal-breaker pod:
    nothing enters [reap], and unless 0 nodes are to be reaped every
    iteration adds the same name to [passover]. *)
Lemma reapLoop_blocked (m : theGrimReaper) (clock : Clock)
    (allNodes : list Node) (nodesToReap : Z) (now0 : Time) (node0 : Node) :
  0 <= fst (scanOldest allNodes 0 [] now0 (-1)) ->
  nth_error allNodes (Z.to_nat (fst (scanOldest allNodes 0 [] now0 (-1)))) = Some node0 ->
  (forall h1, HasDealBreakerPods (nodeClient m) h1 (Name node0) = (true, None)) ->
  forall iterations passover h reap' passover' h',
    reapLoop m clock iterations allNodes nodesToReap [] [] passover h
    = (Ok (reap', passover', None), h') ->
    reap' = [] /\
    (nodesToReap <> 0 ->
     passover' = passover ++ repeat (Name node0) (List.length iterations)).
Proof.
  intros Hidx Hnode Hbreak.
  induction iterations as [|it iterations IH]; intros passover h reap' passover' h' Hrun.
  - injection Hrun as <- <- _. split; [reflexivity|]. intros _. simpl. now rewrite app_nil_r.
  - simpl in Hrun. unfold bind at 1 in Hrun. unfold timeNow, invoke at 1 in Hrun.
    unfold bind at 1 in Hrun.
    destruct (index_cases (E := Call) allNodes
                (fst (scanOldest allNodes 0 [] (clock h) (-1))) (h ++ [CallTimeNow]))
      as [Hp | (node & Hb & Hnth & Hix)]; rewrite ?Hp, ?Hix in Hrun; [discriminate|].
    rewrite (scanOldest_unique allNodes (clock h) now0 (proj1 Hb) Hidx) in Hnth.
    assert (node = node0) by congruence. subst node.
    unfold bind at 1, invoke at 1 in Hrun. rewrite Hbreak in Hrun.
    change (len (@nil string)) with 0 in Hrun.
    destruct (Z.eqb_spec 0 nodesToReap) as [Hz | Hnz].
    + injection Hrun as <- <- _. split; [reflexivity|]. intros Hne. congruence.
    + destruct (IH _ _ _ _ _ Hrun) as (-> & Hpass).
      split; [reflexivity|]. intros Hne. rewrite (Hpass Hne).
      unfold append. rewrite <- app_assoc. reflexivity.
Qed.

(** X20: a deal-breaker pod on the oldest node blocks the whole selection.
    When the node the scan finds (the oldest one) answers every deal-breaker
    query with yes, a selection that returns without error returns an empty
    [reap]; and unless 0 nodes are to be reaped, it has gone through all its
    iterations on that one node: [passover] is the node's name once per
    listed node.  The younger nodes are never looked at. *)
Theorem GetNodesToReap_blocked_by_oldest (m : theGrimReaper) (clock : Clock)
    (h h' : History) (allNodes : list Node) (reap passover : list string)
    (now0 : Time) (node0 : Node) :
  ListNodes (nodeClient m) h (NodeLabelSelector (config m)) = (allNodes, None) ->
  0 <= fst (scanOldest allNodes 0 [] now0 (-1)) ->
  nth_error allNodes (Z.to_nat (fst (scanOldest allNodes 0 [] now0 (-1)))) = Some node0 ->
  (forall h1, HasDealBreakerPods (nodeClient m) h1 (Name node0) = (true, None)) ->
  GetNodesToReap m clock h = (Ok (reap, passover, None), h') ->
  reap = [] /\
  (nodesToReapOf (config m) (len allNodes) <> 0 ->
   passover = repeat (Name node0) (List.length allNodes)).
Proof.
  intros Hlist Hidx Hnode Hbreak.
  unfold GetNodesToReap, bind at 1, invoke at 1. rewrite Hlist. intros Hrun.
  exact (reapLoop_blocked m clock allNodes _ now0 node0 Hidx Hnode Hbreak
           allNodes [] _ reap passover h' Hrun).
Qed.

(** Four nodes, two to reap, a deal-breaker pod on "a" only. *)
Lemma GetNodesToReap_blocked_by_oldest_witness :
  @nil string = [] /\
  (nodesToReapOf (settingsWith 1 5 (1 # 2)) (len fourNodes) <> 0 ->
   ["a"; "a"; "a"; "a"] = repeat "a" (List.length fourNodes)).
Proof.
  apply (GetNodesToReap_blocked_by_oldest
           (NewGrimReaper (settingsWith 1 5 (1 # 2))
              (gateway fourNodes (fun _ n => String.eqb n "a") succeed succeed))
           noon []
           [CallListNodes ""; CallTimeNow; CallHasDealBreakerPods "a";
            CallTimeNow; CallHasDealBreakerPods "a";
            CallTimeNow; CallHasDealBreakerPods "a";
            CallTimeNow; CallHasDealBreakerPods "a"]
           fourNodes [] ["a"; "a"; "a"; "a"] 100
           {| Name := "a"; CreationTimestamp := 10 |}).
  - reflexivity.
  - simpl. lia.
  - reflexivity.
  - intros h1. reflexivity.
  - reflexivity.
Defined.

End BlockedSelection.
